(** * esx-boot: logging hub, TMFIFO console and ELF-to-EFI converter

    A shallow embedding of [log.c] (the logging hub), of
    [libuart/arm64/tmfifo.c] (the BlueField RSHIM virtual console) and a
    model of the ELF-to-EFI converter pipeline, with the properties stated
    about them. *)

From Stdlib Require Import ZArith List Lia Bool.
From stdpp Require Import base list strings sorting.

Open Scope Z_scope.

(** ** Byte buffers

    C character arrays are lists of bytes (integers in [0, 255]) indexed
    from 0.  A pointer into an array is the array with an offset. *)
Module Buf.

Definition byte := Z.

Definition NUL : byte := 0.
Definition NEWLINE : byte := 10.

(** [buf[i]], 0 when [i] is outside the array. *)
Definition load (buf : list byte) (i : Z) : byte :=
  default 0 (buf !! Z.to_nat i).

(** [buf[i] = v]. *)
Definition store (buf : list byte) (i : Z) (v : byte) : list byte :=
  <[Z.to_nat i := v]> buf.

(** Copy [data] over [buf] starting at index [off]. *)
Definition write_at (buf : list byte) (off : nat) (data : list byte)
  : list byte :=
  take off buf ++ data ++ drop (off + length data) buf.

(** The C string that starts at [buf]: the bytes before the first NUL. *)
Fixpoint c_string (buf : list byte) : list byte :=
  match buf with
  | [] => []
  | b :: rest => if b =? NUL then [] else b :: c_string rest
  end.

(** The array holds a NUL, so that the string starting at it ends inside. *)
Definition nul_terminated (buf : list byte) : Prop :=
  exists n : nat, buf !! n = Some NUL.

End Buf.

(** ** log.c -- logging support *)
Module Log.
Import Buf.

(** Modelled from the spec: [syslog.h] is not among the sources embedded
    here.
    The severity levels follow the syslog interface documented at the head
    of [log.c] ("range from 0 to 7"), with LOG_EMERG = 0 and LOG_DEBUG = 7,
    and [IS_SYSLOG_LEVEL] tests membership in that range. *)
Definition LOG_EMERG : Z := 0.
Definition LOG_INFO : Z := 6.
Definition LOG_DEBUG : Z := 7.
Definition IS_SYSLOG_LEVEL (level : Z) : bool :=
  (LOG_EMERG <=? level) && (level <=? LOG_DEBUG).

Definition CONSOLES_MAX_NR : nat := 2.
Definition LOG_MAX_LEN : Z := 1024.
Definition SYSLOG_EMPTY_MSG_SIZE : Z := 5.

(** Generic status codes used by [log.c]. *)
Inductive status := ERR_SUCCESS | ERR_INVALID_PARAMETER | ERR_OUT_OF_RESOURCES.

(** [log_callback_t] is a function pointer; it is modelled by its address,
    [NULL] being 0. *)
Definition log_callback_t := Z.
Definition NULL : log_callback_t := 0.

Record console_t := { notify : log_callback_t; maxlevel : Z }.

Definition free_console : console_t := {| notify := NULL; maxlevel := 0 |}.

(** The two static objects of [log.c]. *)
Record state := {
  message : list byte;          (* char message[LOG_MAX_LEN] *)
  consoles : list console_t     (* console_t consoles[CONSOLES_MAX_NR] *)
}.

(** Static storage is zero-initialised. *)
Definition initial_state : state :=
  {| message := replicate (Z.to_nat LOG_MAX_LEN) NUL;
     consoles := replicate CONSOLES_MAX_NR free_console |}.

(** *** snprintf / vsnprintf

    Modelled from the spec: the freestanding runtime's printf primitives are
    external collaborators whose source ([libc/printf.c]) is not among the
    sources embedded here.
    They are taken with their C99 contract.  The expansion of the format
    string with its arguments is an input of the model: [Some out] is the
    complete text the conversion produces, [None] an output error (return
    value -1).  With room for [size > 0] bytes at [buf + off], the first
    [size - 1] bytes of [out] are stored, followed by a NUL, and the
    return value is the length of [out]. *)
Definition c_snprintf (buf : list byte) (off : nat) (size : Z)
    (expansion : option (list byte)) : list byte * Z :=
  match expansion with
  | None => (buf, -1)
  | Some out =>
      if size <=? 0 then (buf, Z.of_nat (length out))
      else (write_at buf off (take (Z.to_nat (size - 1)) out ++ [NUL]),
            Z.of_nat (length out))
  end.

(** Expansion of ["<%c>%s"] with ['0' + (char)level] and the prefix (the
    empty string when the prefix is NULL). *)
Definition syslog_header (level : Z) (prefix : option (list byte))
  : list byte :=
  [60; 48 + level; 62] ++ default [] prefix.

(** *** syslog_vformat

    Returns the buffer after the call and the message length (not including
    the trailing NUL).  [body] is the expansion of [fmt] with [ap].  Where
    [msgbuf[len - 1]] is read, [len] is at least 3 (the header), so that
    the index is inside the array. *)
Definition syslog_vformat (msgbuf : list byte) (buflen : Z) (level : Z)
    (prefix : option (list byte)) (body : option (list byte))
  : list byte * Z :=
  if (buflen <? SYSLOG_EMPTY_MSG_SIZE) || negb (IS_SYSLOG_LEVEL level)
  then (msgbuf, 0)
  else
    let '(msgbuf, n) :=
      c_snprintf msgbuf 0 buflen (Some (syslog_header level prefix)) in
    if n =? -1 then (msgbuf, 0)
    else
      let len := Z.min n (buflen - 1) in
      let formatted :=
        if len + 1 <=? buflen then
          let '(msgbuf, n) :=
            c_snprintf msgbuf (Z.to_nat len) (buflen - len) body in
          if n =? -1 then None
          else Some (msgbuf, len + Z.min n (buflen - len - 1))
        else Some (msgbuf, len) in
      match formatted with
      | None => (msgbuf, 0)
      | Some (msgbuf, len) =>
          if negb (load msgbuf (len - 1) =? NEWLINE) then
            let len := if len + 1 =? buflen then len - 1 else len in
            let msgbuf := store msgbuf len NEWLINE in
            let len := len + 1 in
            let msgbuf := store msgbuf len NUL in
            (msgbuf, len)
          else (msgbuf, len)
      end.

(** *** Log

    A call of a console routine: the callback and the contents of the
    message buffer it is handed. *)
Definition call := (log_callback_t * list byte)%type.

(** The notification loop [for (i = 0; i < CONSOLES_MAX_NR; i++)], from
    index [i] with [n] iterations left. *)
Fixpoint notify_loop (level : Z) (msg : list byte) (cs : list console_t)
    (i n : nat) : list call :=
  match n with
  | O => []
  | S n' =>
      let rest := notify_loop level msg cs (S i) n' in
      match cs !! i with
      | Some c =>
          if negb (notify c =? NULL) && (level <=? maxlevel c)
          then (notify c, msg) :: rest
          else rest
      | None => rest
      end
  end.

(** [Log(level, fmt, ...)]: the state after the call and the console calls
    made, in order. *)
Definition Log (level : Z) (body : option (list byte)) (st : state)
  : state * list call :=
  let level := if negb (IS_SYSLOG_LEVEL level) then LOG_DEBUG else level in
  let '(msg, len) := syslog_vformat (message st) LOG_MAX_LEN level None body in
  let st' := {| message := msg; consoles := consoles st |} in
  let size := len + 1 in
  if size <=? 1 then (st', [])
  else (st', notify_loop level msg (consoles st) 0 CONSOLES_MAX_NR).

(** *** log_unsubscribe

    The loop from index [i] with [n] iterations left: the first slot that
    holds [callback] is cleared and the loop returns. *)
Fixpoint unsubscribe_loop (callback : log_callback_t)
    (cs : list console_t) (i n : nat) : list console_t :=
  match n with
  | O => cs
  | S n' =>
      match cs !! i with
      | Some c =>
          if notify c =? callback then <[i := free_console]> cs
          else unsubscribe_loop callback cs (S i) n'
      | None => unsubscribe_loop callback cs (S i) n'
      end
  end.

Definition log_unsubscribe (callback : log_callback_t) (st : state) : state :=
  {| message := message st;
     consoles := unsubscribe_loop callback (consoles st) 0 CONSOLES_MAX_NR |}.

(** *** log_subscribe *)
Fixpoint subscribe_loop (callback : log_callback_t) (maxlevel : Z)
    (cs : list console_t) (i n : nat) : status * list console_t :=
  match n with
  | O => (ERR_OUT_OF_RESOURCES, cs)
  | S n' =>
      match cs !! i with
      | Some c =>
          if notify c =? NULL
          then (ERR_SUCCESS,
                <[i := {| notify := callback; maxlevel := maxlevel |}]> cs)
          else subscribe_loop callback maxlevel cs (S i) n'
      | None => subscribe_loop callback maxlevel cs (S i) n'
      end
  end.

Definition log_subscribe (callback : log_callback_t) (maxlevel : Z)
    (st : state) : status * state :=
  let maxlevel :=
    if negb (IS_SYSLOG_LEVEL maxlevel) then LOG_DEBUG else maxlevel in
  let st := log_unsubscribe callback st in
  let '(r, cs) :=
    subscribe_loop callback maxlevel (consoles st) 0 CONSOLES_MAX_NR in
  (r, {| message := message st; consoles := cs |}).

(** *** log_init

    [firmware_print] is the address of the firmware console routine. *)
Definition log_init (firmware_print : log_callback_t) (verbose : bool)
    (st : state) : status * state :=
  log_subscribe firmware_print (if verbose then LOG_DEBUG else LOG_INFO) st.

(** The states the hub can be in: the zero-initialised one, and those
    obtained by the exported operations. *)
Inductive reachable : state -> Prop :=
| reach_init : reachable initial_state
| reach_subscribe cb lvl st :
    reachable st -> reachable (snd (log_subscribe cb lvl st))
| reach_unsubscribe cb st :
    reachable st -> reachable (log_unsubscribe cb st)
| reach_log lvl body st :
    reachable st -> reachable (fst (Log lvl body st)).

(** Number of slots of the table that hold [cb]. *)
Definition slots_of (cb : log_callback_t) (cs : list console_t) : nat :=
  length (filter (fun c => notify c = cb) cs).

(** Number of calls of [cb] in a sequence of console calls. *)
Definition calls_of (cb : log_callback_t) (tr : list call) : nat :=
  length (filter (fun c => fst c = cb) tr).

(** *** Vocabulary of the properties *)

(** What a console is handed: [len] bytes that are not NUL, the last of
    them a newline, then a NUL, all inside the array. *)
Definition delivered_ok (buf : list byte) (len : Z) : Prop :=
  0 < len < Z.of_nat (length buf) /\
  Forall (fun b => b <> NUL) (take (Z.to_nat len) buf) /\
  buf !! Z.to_nat len = Some NUL /\
  buf !! Z.to_nat (len - 1) = Some NEWLINE.

(** The table has its two slots, and they hold different callbacks unless
    they are free. *)
Definition table_ok (cs : list console_t) : Prop :=
  exists c0 c1, cs = [c0; c1] /\ (notify c0 = notify c1 -> notify c0 = NULL).

(** Number of slots in use. *)
Definition occupied (cs : list console_t) : nat :=
  length (filter (fun c => notify c <> NULL) cs).

(** A level outside the syslog range is taken as LOG_DEBUG. *)
Definition clamp_level (level : Z) : Z :=
  if negb (IS_SYSLOG_LEVEL level) then LOG_DEBUG else level.

(** *** syslog_get_message_level

    [is_syslog_message] comes from [syslog.h]; it is a parameter here.
    [level] is what [*level] holds before the call: the result is the status
    and what [*level] holds after it. *)
Section MessageLevel.

Variable is_syslog_message : list byte -> bool.

Definition syslog_get_message_level (msg : list byte) (level : Z)
  : status * Z :=
  if negb (is_syslog_message msg) then (ERR_INVALID_PARAMETER, level)
  else (ERR_SUCCESS, load msg 1 - 48).

End MessageLevel.

(** A test of the three header characters ["<d>"], [d] a digit in the
    syslog range: the test one expects [is_syslog_message] to make. *)
Definition has_syslog_header (msg : list byte) : bool :=
  (load msg 0 =? 60) && IS_SYSLOG_LEVEL (load msg 1 - 48) && (load msg 2 =? 62).

(** The message [syslog_vformat] leaves in a buffer of [buflen] bytes, in
    closed form: header and text cut to [buflen - 1] characters, and a
    newline at the end, appended when there is room and written over the
    last character otherwise. *)
Definition formatted_message (buflen level : Z) (prefix : option (list byte))
    (text : list byte) : list byte :=
  let s := take (Z.to_nat (buflen - 1)) (syslog_header level prefix ++ text) in
  if bool_decide (last s = Some NEWLINE) then s
  else if Z.of_nat (length s) + 1 =? buflen
       then take (length s - 1) s ++ [NEWLINE]
       else s ++ [NEWLINE].

(** The test [Log] makes on a slot before it calls its routine. *)
Definition notified (level : Z) (c : console_t) : bool :=
  negb (notify c =? NULL) && (level <=? maxlevel c).

(** Every slot holds a level of the syslog range. *)
Definition levels_in_range (cs : list console_t) : Prop :=
  Forall (fun c => LOG_EMERG <= maxlevel c <= LOG_DEBUG) cs.

End Log.

(** ** libuart/arm64/tmfifo.c -- virtual console over the RSHIM interface *)
Module Tmfifo.

Definition TMFIFO_MSG_CONSOLE : Z := 3.

Definition TILE_TO_HOST_DATA : Z := 0xa40.
Definition TILE_TO_HOST_STATUS : Z := 0xa48.
Definition TILE_TO_HOST_CTL : Z := 0xa50.
Definition SCRATCHPAD1 : Z := 0xc20.

Definition FIFO_LENGTH : Z := 256.

Definition to_uint64 (v : Z) : Z := v mod 2 ^ 64.

(** [tmfifo_msg_header_t]: a union of eight bytes and a 64-bit word. *)
Record tmfifo_msg_header_t := {
  type : Z;            (* message type *)
  len_hi : Z;          (* payload length, high 8 bits *)
  len_lo : Z;          (* payload length, low 8 bits *)
  unused : list Z      (* reserved, set to 0 (5 bytes) *)
}.

(** The bytes of the structure, in memory order. *)
Definition header_bytes (h : tmfifo_msg_header_t) : list Z :=
  [type h; len_hi h; len_lo h] ++ unused h.

(** The [data] member of the union: the eight bytes read as a 64-bit word
    (arm64 is little-endian). *)
Fixpoint le_word (bytes : list Z) : Z :=
  match bytes with
  | [] => 0
  | b :: rest => Z.lor b (Z.shiftl (le_word rest) 8)
  end.

Definition header_data (h : tmfifo_msg_header_t) : Z := le_word (header_bytes h).

Definition tx_header : tmfifo_msg_header_t :=
  {| type := TMFIFO_MSG_CONSOLE; len_hi := 0; len_lo := 1;
     unused := [0; 0; 0; 0; 0] |}.

(** *** Register accesses

    An access to a device register, at an offset from [dev->io]. *)
Inductive io_event :=
| IoRead (reg : Z) (value : Z)
| IoWrite (reg : Z) (value : Z).

(** The device: the value a read of a register returns, after the accesses
    made so far. *)
Definition device := list io_event -> Z -> Z.

(** A computation that accesses the device: from the accesses made so far,
    its result and the accesses it makes, in order. *)
Definition io (A : Type) := list io_event -> A * list io_event.

#[export] Instance io_ret : MRet io := fun A a _ => (a, []).

#[export] Instance io_bind : MBind io := fun A B k m hist =>
  let '(a, ev1) := m hist in
  let '(b, ev2) := k a (hist ++ ev1) in
  (b, ev1 ++ ev2).

Section Driver.

Variable dev : device.

Definition io_read64 (reg : Z) : io Z :=
  fun hist => let v := to_uint64 (dev hist reg) in (v, [IoRead reg v]).

Definition io_write64 (reg : Z) (value : Z) : io unit :=
  fun _ => (tt, [IoWrite reg (to_uint64 value)]).

(** Whether the remote end (rshim driver) is present. *)
Definition tmfifo_connected : io bool :=
  v ← io_read64 SCRATCHPAD1;
  mret (negb (v =? 0)).

(** Whether the TX FIFO is full: there is no room for two more packets. *)
Definition tmfifo_full : io bool :=
  v ← io_read64 TILE_TO_HOST_STATUS;
  mret (v >? FIFO_LENGTH - 2).

(** The loop [for (timeout = 0xffff; timeout > 0; timeout--)] of
    [tmfifo_putc], with [timeout] iterations left. *)
Fixpoint putc_loop (c : Z) (timeout : nat) : io unit :=
  match timeout with
  | O => mret tt
  | S timeout' =>
      full ← tmfifo_full;
      if negb full then
        io_write64 TILE_TO_HOST_DATA (header_data tx_header);;
        io_write64 TILE_TO_HOST_DATA c
      else putc_loop c timeout'
  end.

Definition tmfifo_putc (c : Z) : io unit :=
  connected ← tmfifo_connected;
  if negb connected then mret tt
  else putc_loop c (Z.to_nat 0xffff).

End Driver.

(** The register writes among a sequence of accesses. *)
Definition writes_of (evs : list io_event) : list (Z * Z) :=
  omap (fun e => match e with
                 | IoWrite reg v => Some (reg, v)
                 | IoRead _ _ => None
                 end) evs.

(** *** Vocabulary of the properties *)

(** A status value at which [tmfifo_full] answers that the FIFO is full. *)
Definition fifo_full (s : Z) : Prop := s > FIFO_LENGTH - 2.

(** The two writes that send a character: the header word, then the
    character. *)
Definition send_char (c : Z) : list io_event :=
  [IoWrite TILE_TO_HOST_DATA (header_data tx_header);
   IoWrite TILE_TO_HOST_DATA (to_uint64 c)].

(** A remote end that is present and whose FIFO has room at the third
    poll. *)
Definition busy_twice : device := fun hist reg =>
  if reg =? SCRATCHPAD1 then 1
  else if (length hist <? 3)%nat then 255 else 10.

(** The values that [n] successive polls of the status register return,
    from the accesses made so far, when nothing else is accessed in
    between. *)
Fixpoint polls (dev : device) (hist : list io_event) (n : nat) : list Z :=
  match n with
  | O => []
  | S n' =>
      let s := to_uint64 (dev hist TILE_TO_HOST_STATUS) in
      s :: polls dev (hist ++ [IoRead TILE_TO_HOST_STATUS s]) n'
  end.

(** The accesses [tmfifo_putc] may make: reads of SCRATCHPAD1 and of the
    status register, writes of the data register. *)
Definition allowed_access (e : io_event) : Prop :=
  match e with
  | IoRead reg _ => reg = SCRATCHPAD1 \/ reg = TILE_TO_HOST_STATUS
  | IoWrite reg _ => reg = TILE_TO_HOST_DATA
  end.

(** Of a sequence of status values, those the polling loop reads: up to
    and including the first at which the FIFO is not full. *)
Fixpoint polled (ss : list Z) : list Z :=
  match ss with
  | [] => []
  | s :: rest => if s >? FIFO_LENGTH - 2 then s :: polled rest else [s]
  end.

(** Whether one of the status values shows room in the FIFO. *)
Definition room_found (ss : list Z) : bool :=
  existsb (fun s => negb (s >? FIFO_LENGTH - 2)) ss.

(** Byte [i] of a 64-bit word, byte 0 the least significant. *)
Definition byte_of_word (w : Z) (i : nat) : Z :=
  Z.land (Z.shiftr w (8 * Z.of_nat i)) 0xff.

(** The members of the structure hold 8-bit values, and [unused] has its
    five bytes. *)
Definition header_wf (h : tmfifo_msg_header_t) : Prop :=
  length (unused h) = 5%nat /\
  Forall (fun b => 0 <= b < 256) (header_bytes h).

(** The register reads among a sequence of accesses. *)
Definition reads_in (evs : list io_event) : list (Z * Z) :=
  omap (fun e => match e with
                 | IoRead reg v => Some (reg, v)
                 | IoWrite _ _ => None
                 end) evs.

End Tmfifo.

(** ** elf2efi -- the ELF-to-EFI image converter

    The converter's source ([elf2efi.c]) is not among the sources embedded
    here (only its build rule is).  The pipeline is modelled from its
    specification: Reader, Section Layout Planner, Relocation Translator,
    Symbol and Entry Resolver, PE/COFF Emitter. *)
Module Elf2Efi.

(** Modelled from the spec: images are byte sequences; a byte is an
    integer in [0, 255]. *)
Definition byte := Z.

(** *** Failures *)

(** Modelled from the spec: the error taxonomy of the converter (section 7).
    [UnsupportedRelocation] names the type code, the section and the offset
    of the offending record. *)
Inductive error :=
| FormatError
| TruncatedError
| UnsupportedMachine
| UnsupportedRelocation (type_code : Z) (section : nat) (offset : Z)
| MissingEntryPoint
| ImageTooLarge
| IoError.

(** Modelled from the spec: a stage produces its artifact or a failure. *)
Inductive result (A : Type) :=
| Ok (a : A)
| Failed (e : error).
Arguments Ok {A} a.
Arguments Failed {A} e.

#[export] Instance result_ret : MRet result := fun A a => Ok a.
#[export] Instance result_bind : MBind result := fun A B k m =>
  match m with
  | Ok a => k a
  | Failed e => Failed e
  end.

(** Modelled from the spec: a stage that finds its condition violated
    halts the pipeline with the failure [e] (section 4.5, state machine). *)
Definition require (b : bool) (e : error) : result unit :=
  if b then Ok tt else Failed e.

(** Modelled from the spec: a lookup that finds nothing is the failure
    [e]. *)
Definition from_option {A} (o : option A) (e : error) : result A :=
  match o with
  | Some a => Ok a
  | None => Failed e
  end.

(** Modelled from the spec: records are processed in order, and the first
    failure halts (no stage is retried). *)
Fixpoint traverse {A B} (f : A -> result B) (l : list A) : result (list B) :=
  match l with
  | [] => Ok []
  | a :: rest =>
      b ← f a;
      bs ← traverse f rest;
      mret (b :: bs)
  end.

(** *** Data model *)

(** Modelled from the spec: the input image (section 3, ElfImage).  Section
    flags are the three the layout stage looks at; the section type tells
    apart sections that hold file bits, sections that do not, and tables
    and debug or comment sections, which are never loaded. *)
Inductive SectionType :=
| Progbits | Nobits | SymbolTable | StringTable | RelocationTable | DebugInfo.

Record Section := {
  sec_name : string;
  sec_type : SectionType;
  sec_alloc : bool;        (* occupies runtime memory *)
  sec_write : bool;
  sec_exec : bool;
  sec_addr : Z;            (* virtual address *)
  sec_size : Z;
  sec_align : Z;
  sec_data : list byte     (* view into the raw bytes *)
}.

Record Symbol := {
  sym_name : string;
  sym_value : Z;
  sym_section : nat;       (* owning section index *)
  sym_binding : Z
}.

Record Relocation := {
  r_offset : Z;            (* offset of the fixup inside its section *)
  r_symbol : nat;          (* symbol index *)
  r_type : Z;              (* type code *)
  r_addend : Z
}.

Record ElfImage := {
  elf_machine : Z;
  elf_entry : Z;                            (* entry virtual address *)
  elf_sections : list Section;
  elf_symbols : list Symbol;
  elf_relocs : list (nat * Relocation)      (* per section, in order: the
                                               section index and the record *)
}.

(** Modelled from the spec: the output layout (section 3, PeLayout).  The
    four section classes, in the order they are laid out. *)
Inductive Bucket := Code | ReadOnlyData | InitializedData | UninitializedData.

#[export] Instance Bucket_eq_dec : EqDecision Bucket.
Proof. solve_decision. Defined.

Definition all_buckets : list Bucket :=
  [Code; ReadOnlyData; InitializedData; UninitializedData].

Record PeSection := {
  ps_name : string;                  (* short name *)
  ps_rva : Z;                        (* virtual address (RVA) *)
  ps_virtual_size : Z;
  ps_raw_size : Z;                   (* raw data size *)
  ps_file_ptr : Z;                   (* file pointer of the raw data *)
  ps_characteristics : Z;
  ps_bucket : Bucket;
  ps_members : list (nat * Z)        (* original sections, with their
                                        offsets inside this section *)
}.

Record PeLayout := {
  pl_sections : list PeSection;
  pl_image_base : Z;
  pl_section_alignment : Z;
  pl_file_alignment : Z;
  pl_image_size : Z;
  pl_size_of_headers : Z
}.

Inductive Subsystem := Application | Driver.

(** Modelled from the spec: the arguments of a conversion (section 6),
    with the layout parameters and their defaults (section 3). *)
Record Config := {
  cfg_subsystem : Subsystem;
  cfg_strip_debug : bool;
  cfg_image_base : Z;
  cfg_section_alignment : Z;
  cfg_file_alignment : Z;
  cfg_size_of_headers : Z
}.

Definition default_config : Config :=
  {| cfg_subsystem := Application; cfg_strip_debug := false;
     cfg_image_base := 0;
     cfg_section_alignment := 4096; cfg_file_alignment := 512;
     cfg_size_of_headers := 1024 |}.

(** *** Section Layout Planner *)

(** Modelled from the spec: rounding up to an alignment; [x] rounded up
    to a multiple of [a], alignments below 2 asking for nothing. *)
Definition align_up (x a : Z) : Z :=
  if a <=? 1 then x else (x + a - 1) / a * a.

(** Modelled from the spec: the filter of section 4.2.  Loaded sections
    are kept, and so is a section that a relocation needs to resolve its
    symbol; tables and debug or comment sections are dropped. *)
Definition loadable_type (s : Section) : bool :=
  match sec_type s with
  | Progbits | Nobits => true
  | SymbolTable | StringTable | RelocationTable | DebugInfo => false
  end.

Definition needed_by_reloc (img : ElfImage) (i : nat) : bool :=
  existsb (fun '(_, r) =>
             match elf_symbols img !! r_symbol r with
             | Some sym => Nat.eqb (sym_section sym) i
             | None => false
             end) (elf_relocs img).

Definition kept (img : ElfImage) (i : nat) (s : Section) : bool :=
  loadable_type s && (sec_alloc s || needed_by_reloc img i).

(** Modelled from the spec: bucketing by flag combination (section 4.2):
    exec+read is code, write+read without file bits is uninitialized data,
    write+read is initialized data, read-only is read-only data. *)
Definition bucket_of (s : Section) : Bucket :=
  if sec_exec s then Code
  else if sec_write s then
    match sec_type s with
    | Nobits => UninitializedData
    | _ => InitializedData
    end
  else ReadOnlyData.

(** Modelled from the spec: inside a bucket the sections follow each other
    in file order, each one padded to the larger of its alignment and its
    predecessor's.  [cursor] is the size so far, [prev_align] the alignment
    of the previous member.  The result is the members with their offsets,
    and the total size. *)
Fixpoint place_members (img : ElfImage) (b : Bucket)
    (secs : list (nat * Section)) (cursor prev_align : Z)
  : list (nat * Z) * Z :=
  match secs with
  | [] => ([], cursor)
  | (i, s) :: rest =>
      if kept img i s && bool_decide (bucket_of s = b) then
        let off := align_up cursor (Z.max prev_align (sec_align s)) in
        let '(members, total) :=
          place_members img b rest (off + sec_size s) (sec_align s) in
        ((i, off) :: members, total)
      else place_members img b rest cursor prev_align
  end.

Definition bucket_layout (img : ElfImage) (b : Bucket) : list (nat * Z) * Z :=
  place_members img b (imap pair (elf_sections img)) 0 0.

(** Modelled from the spec: the sections of the input that go to bucket
    [b] (section 4.2): a section with its index belongs to [b] when the
    filter keeps it and its flags select [b]. *)
Definition in_bucket (img : ElfImage) (b : Bucket) (p : nat * Section)
  : bool :=
  kept img (fst p) (snd p) && bool_decide (bucket_of (snd p) = b).

(** Modelled from the spec: empty buckets are not emitted (section 8).
    Whether a bucket is empty is read off the input: it is non-empty when
    one of the input sections that go to it holds at least one byte.  (A
    bucket whose sections all have size 0 takes no address space: a
    section emitted for it would share its RVA with the next one.) *)
Definition nonempty_bucket (img : ElfImage) (b : Bucket) : bool :=
  existsb (fun p => in_bucket img b p && (0 <? sec_size (snd p)))
    (imap pair (elf_sections img)).

(** Modelled from the spec: the size of a section is an unsigned field of
    the section table. *)
Definition sizes_unsigned (img : ElfImage) : Prop :=
  Forall (fun s => 0 <= sec_size s) (elf_sections img).

Definition bucket_name (b : Bucket) : string :=
  match b with
  | Code => ".text"
  | ReadOnlyData => ".rdata"
  | InitializedData => ".data"
  | UninitializedData => ".bss"
  end.

(** Modelled from the spec: the characteristics flags (section 3): code /
    initialized data / uninitialized data, and execute / read / write. *)
Definition bucket_characteristics (b : Bucket) : Z :=
  match b with
  | Code => 0x60000020
  | ReadOnlyData => 0x40000040
  | InitializedData => 0xC0000040
  | UninitializedData => 0xC0000080
  end.

(** Modelled from the spec: addresses are handed out bucket after bucket,
    each bucket advancing the address by its size rounded up to the
    section alignment, and the file pointer by its raw size, which is its
    size rounded up to the file alignment (nothing for uninitialized
    data).  The result is the emitted sections and the address reached. *)
Fixpoint plan_buckets (cfg : Config) (img : ElfImage) (bs : list Bucket)
    (rva fptr : Z) : list PeSection * Z :=
  match bs with
  | [] => ([], rva)
  | b :: rest =>
      let '(members, total) := bucket_layout img b in
      if 0 <? total then
        let raw := match b with
                   | UninitializedData => 0
                   | _ => align_up total (cfg_file_alignment cfg)
                   end in
        let sec := {| ps_name := bucket_name b;
                      ps_rva := rva;
                      ps_virtual_size := total;
                      ps_raw_size := raw;
                      ps_file_ptr := fptr;
                      ps_characteristics := bucket_characteristics b;
                      ps_bucket := b;
                      ps_members := members |} in
        let '(secs, stop) :=
          plan_buckets cfg img rest
            (rva + align_up total (cfg_section_alignment cfg)) (fptr + raw) in
        (sec :: secs, stop)
      else plan_buckets cfg img rest rva fptr
  end.

(** Modelled from the spec: the Section Layout Planner.  Addresses start
    at the size of the headers above the image base, rounded up to the
    section alignment; the declared image size is the address space the
    sections take. *)
Definition plan_layout (cfg : Config) (img : ElfImage) : PeLayout :=
  let start := align_up (cfg_size_of_headers cfg) (cfg_section_alignment cfg) in
  let fstart := align_up (cfg_size_of_headers cfg) (cfg_file_alignment cfg) in
  let '(secs, stop) := plan_buckets cfg img all_buckets start fstart in
  {| pl_sections := secs;
     pl_image_base := cfg_image_base cfg;
     pl_section_alignment := cfg_section_alignment cfg;
     pl_file_alignment := cfg_file_alignment cfg;
     pl_image_size := stop - start;
     pl_size_of_headers := cfg_size_of_headers cfg |}.

(** Modelled from the spec: the address map (section 4.2), from an
    original section index and an in-section offset to the final RVA,
    when the section was placed. *)
Fixpoint member_rva (secs : list PeSection) (i : nat) : option Z :=
  match secs with
  | [] => None
  | s :: rest =>
      match list_find (fun m => fst m = i) (ps_members s) with
      | Some (_, (_, off)) => Some (ps_rva s + off)
      | None => member_rva rest i
      end
  end.

Definition address_map (layout : PeLayout) (i : nat) (offset : Z) : option Z :=
  base ← member_rva (pl_sections layout) i;
  Some (base + offset).

(** *** Relocation Translator *)

(** Modelled from the spec: what the architecture table says about a
    relocation type (section 4.3): how the fixup addresses its target and
    how wide the patched field is.  The table itself is specific to the
    target architecture and is a parameter of the converter; a type it
    does not list (deferred external resolution, thread-local storage,
    procedure-linkage indirection, ...) is rejected. *)
Inductive Addressing := Absolute | PcRelative | StaticResolved.

Inductive Width := W32 | W64.

Definition width_bytes (w : Width) : Z :=
  match w with W32 => 4 | W64 => 8 end.

Record FixupSpec := { fx_addressing : Addressing; fx_width : Width }.

Definition RelocTable := Z -> option FixupSpec.

(** Modelled from the spec: the kinds of runtime base relocation (section
    4.3), with their codes in the relocation table. *)
Inductive FixupKind :=
| Rebase64       (* 64-bit absolute *)
| HighLow32.     (* 32-bit high/low *)


(** Modelled from the spec: only absolute-address fixups, whose value
    depends on the load base, need a runtime entry; 64-bit absolute gives
    a 64-bit rebase, 32-bit absolute a 32-bit high/low rebase. *)
Definition runtime_kind (f : FixupSpec) : option FixupKind :=
  match fx_addressing f with
  | Absolute =>
      Some (match fx_width f with W64 => Rebase64 | W32 => HighLow32 end)
  | PcRelative | StaticResolved => None
  end.

(** Modelled from the spec: a relocation block (section 3): the page RVA
    and the (in-page offset, fixup kind) entries. *)
Record RelocationBlock := {
  rb_page : Z;
  rb_entries : list (Z * FixupKind)
}.

Definition PAGE_SIZE : Z := 4096.

Definition page_of (rva : Z) : Z := rva - rva mod PAGE_SIZE.
Definition offset_in_page (rva : Z) : Z := rva mod PAGE_SIZE.

(** Modelled from the spec: a relocation record once resolved (section
    4.3): where the fixup is, what the table says about it, and the static
    value to store there. *)
Record Fixup := {
  fu_section : nat;
  fu_offset : Z;
  fu_rva : Z;
  fu_spec : FixupSpec;
  fu_value : Z
}.

Definition fu_width (f : Fixup) : Z := width_bytes (fx_width (fu_spec f)).

(** Modelled from the spec: fixed-width fields are written little-endian;
    [n] bytes of [v]. *)
Fixpoint le_bytes (n : nat) (v : Z) : list byte :=
  match n with
  | O => []
  | S n' => v mod 256 :: le_bytes n' (v / 256)
  end.

(** Modelled from the spec: patching bytes in place; [bs] written over
    [data] at offset [off]. *)
Definition patch (data : list byte) (off : nat) (bs : list byte) : list byte :=
  take off data ++ bs ++ drop (off + length bs) data.

(** Modelled from the spec: a type outside the table is rejected with
    [UnsupportedRelocation], naming the type code, section and offset. *)
Definition classify (tbl : RelocTable) (sr : nat * Relocation)
  : result (nat * Relocation * FixupSpec) :=
  let '(i, r) := sr in
  spec ← from_option (tbl (r_type r))
           (UnsupportedRelocation (r_type r) i (r_offset r));
  mret (i, r, spec).

(** Modelled from the spec: the fixup's target RVA comes from the address
    map, and its static value is symbol value + addend, less the fixup
    address for PC-relative kinds.  A record whose target is not a byte
    range inside a placed section, or whose symbol cannot be resolved, is
    malformed. *)
Definition resolve_fixup (layout : PeLayout) (img : ElfImage)
    (x : nat * Relocation * FixupSpec) : result Fixup :=
  let '(i, r, spec) := x in
  sec ← from_option (elf_sections img !! i) FormatError;
  require ((0 <=? r_offset r) &&
           (r_offset r + width_bytes (fx_width spec) <=?
              Z.min (sec_size sec) (Z.of_nat (length (sec_data sec)))))
          FormatError;;
  rva ← from_option (address_map layout i (r_offset r)) FormatError;
  sym ← from_option (elf_symbols img !! r_symbol r) FormatError;
  target ← from_option (address_map layout (sym_section sym) (sym_value sym))
             FormatError;
  let value :=
    match fx_addressing spec with
    | Absolute => pl_image_base layout + target + r_addend r
    | PcRelative => target + r_addend r - rva
    | StaticResolved => target + r_addend r
    end in
  mret {| fu_section := i; fu_offset := r_offset r; fu_rva := rva;
          fu_spec := spec; fu_value := value |}.

(** Modelled from the spec: overlapping relocation targets (section 4.3):
    two fixups whose target byte ranges meet, and a list without such a
    pair. *)
Definition ranges_overlap (a b : Fixup) : bool :=
  (fu_rva a <? fu_rva b + fu_width b) && (fu_rva b <? fu_rva a + fu_width a).

Fixpoint overlap_free (fs : list Fixup) : bool :=
  match fs with
  | [] => true
  | f :: rest =>
      forallb (fun g => negb (ranges_overlap f g)) rest && overlap_free rest
  end.

(** Modelled from the spec: the static value is stored into the working
    copy of the destination section's bytes, for every fixup. *)
Definition apply_fixup (work : list (list byte)) (f : Fixup)
  : list (list byte) :=
  match work !! fu_section f with
  | Some data =>
      <[fu_section f :=
          patch data (Z.to_nat (fu_offset f))
            (le_bytes (Z.to_nat (fu_width f)) (fu_value f))]> work
  | None => work
  end.

Definition fold_values (work : list (list byte)) (fs : list Fixup)
  : list (list byte) :=
  fold_left apply_fixup fs work.

(** Modelled from the spec: the runtime entries (section 4.3), each with
    the RVA of its fixup, and the order they are sorted in. *)
Definition runtime_entries (fs : list Fixup) : list (Z * FixupKind) :=
  omap (fun f => k ← runtime_kind (fu_spec f); Some (fu_rva f, k)) fs.

Definition by_rva (a b : Z * FixupKind) : Prop := fst a <= fst b.

#[export] Instance by_rva_dec a b : Decision (by_rva a b).
Proof. unfold by_rva. apply _. Defined.

(** Modelled from the spec: entries are grouped by containing 4 KiB page;
    a block exists only for a page that has an entry. *)
Fixpoint group_by_page (es : list (Z * FixupKind)) : list RelocationBlock :=
  match es with
  | [] => []
  | (rva, k) :: rest =>
      let e := (offset_in_page rva, k) in
      match group_by_page rest with
      | b :: bs =>
          if rb_page b =? page_of rva
          then {| rb_page := rb_page b; rb_entries := e :: rb_entries b |} :: bs
          else {| rb_page := page_of rva; rb_entries := [e] |} :: b :: bs
      | [] => [{| rb_page := page_of rva; rb_entries := [e] |}]
      end
  end.

Definition build_blocks (fs : list Fixup) : list RelocationBlock :=
  group_by_page (merge_sort by_rva (runtime_entries fs)).

Section Pipeline.

(** Modelled from the spec: the architecture-specific tables (section
    4.3), by ELF machine type; an architecture without a table is
    [UnsupportedMachine]. *)
Variable reloc_tables : Z -> option RelocTable.

(** Modelled from the spec: the Image Reader (section 4.1), from raw bytes
    to the in-memory image or a failure. *)
Variable read_image : list byte -> result ElfImage.

(** Modelled from the spec: the Relocation Translator (section 4.3).  Every
    record is looked up in the table of the image's architecture, then
    resolved through the address map; overlapping targets are a
    [FormatError]; the static values are folded into the working copy of
    the section bytes and the runtime entries are sorted and grouped. *)
Definition translate (layout : PeLayout) (img : ElfImage)
  : result (list (list byte) * list RelocationBlock) :=
  tbl ← from_option (reloc_tables (elf_machine img)) UnsupportedMachine;
  classified ← traverse (classify tbl) (elf_relocs img);
  fixups ← traverse (resolve_fixup layout img) classified;
  require (overlap_free fixups) FormatError;;
  mret (fold_values (map sec_data (elf_sections img)) fixups,
        build_blocks fixups).

(** *** Symbol and Entry Resolver *)


(** *** PE/COFF Emitter *)




























(** *** The pipeline *)


(** *** The command *)

End Pipeline.

(** *** Vocabulary of the properties *)

(** A section lies before another one: lower address, and it ends before
    the other starts. *)
Definition precedes (s1 s2 : PeSection) : Prop :=
  ps_rva s1 < ps_rva s2 /\ ps_rva s1 + ps_virtual_size s1 <= ps_rva s2.

(** The sum of the section sizes, each rounded up to the section
    alignment. *)
Definition aligned_sizes (sa : Z) (secs : list PeSection) : Z :=
  foldr (fun s acc => align_up (ps_virtual_size s) sa + acc) 0 secs.

(** The entries of a block, with their RVA instead of the in-page
    offset. *)
Definition entries_of_block (b : RelocationBlock) : list (Z * FixupKind) :=
  map (fun e => (rb_page b + fst e, snd e)) (rb_entries b).

Definition by_offset (e1 e2 : Z * FixupKind) : Prop := fst e1 <= fst e2.

(** What every emitted block satisfies. *)
Definition block_ok (b : RelocationBlock) : Prop :=
  rb_page b mod PAGE_SIZE = 0 /\
  rb_entries b <> [] /\
  Forall (fun e => 0 <= fst e < PAGE_SIZE) (rb_entries b).

(** A record and the fixup it resolves to. *)
Definition resolved (tbl : RelocTable) (layout : PeLayout)
    (sr : nat * Relocation) (f : Fixup) : Prop :=
  tbl (r_type (snd sr)) = Some (fu_spec f) /\
  address_map layout (fst sr) (r_offset (snd sr)) = Some (fu_rva f) /\
  fu_section f = fst sr /\ fu_offset f = r_offset (snd sr).

(** The table gives the type of the record an absolute addressing. *)
Definition is_absolute (tbl : RelocTable) (sr : nat * Relocation) : bool :=
  match tbl (r_type (snd sr)) with
  | Some spec =>
      match fx_addressing spec with
      | Absolute => true
      | PcRelative | StaticResolved => false
      end
  | None => false
  end.

End Elf2Efi.

(** ** A sample conversion

    A small input image and an architecture table, on which the model can
    be run. *)
Module Scenario.
Import Elf2Efi.

(** An arrangement of the architecture table in the manner of the x86-64
    ABI: type 1 is a 64-bit absolute address, type 10 a 32-bit absolute
    address, type 2 a 32-bit PC-relative one, and type 0 needs nothing at
    run time.  Every other type (such as 4, a procedure-linkage one) is
    outside the supported set. *)
Definition sample_table : RelocTable := fun type_code =>
  if type_code =? 1 then Some {| fx_addressing := Absolute; fx_width := W64 |}
  else if type_code =? 10
  then Some {| fx_addressing := Absolute; fx_width := W32 |}
  else if type_code =? 2
  then Some {| fx_addressing := PcRelative; fx_width := W32 |}
  else if type_code =? 0
  then Some {| fx_addressing := StaticResolved; fx_width := W32 |}
  else None.

Definition sample_tables (machine : Z) : option RelocTable :=
  if machine =? 62 then Some sample_table else None.

Definition text_section : Section :=
  {| sec_name := ".text"; sec_type := Progbits;
     sec_alloc := true; sec_write := false; sec_exec := true;
     sec_addr := 0; sec_size := 96; sec_align := 16;
     sec_data := replicate 96 0x90 |}.

Definition data_section : Section :=
  {| sec_name := ".data"; sec_type := Progbits;
     sec_alloc := true; sec_write := true; sec_exec := false;
     sec_addr := 0x100; sec_size := 16; sec_align := 8;
     sec_data := replicate 16 1 |}.

(** A symbol at offset 0x50 of the code section. *)
Definition target_symbol : Symbol :=
  {| sym_name := "target"; sym_value := 0x50; sym_section := 0;
     sym_binding := 1 |}.

(** A relocation of the code section, against [target_symbol]. *)
Definition reloc_at (offset : Z) (type_code : Z) : nat * Relocation :=
  (0%nat, {| r_offset := offset; r_symbol := 0; r_type := type_code;
             r_addend := 0 |}).

Definition image_with (relocs : list (nat * Relocation)) : ElfImage :=
  {| elf_machine := 62; elf_entry := 0;
     elf_sections := [text_section; data_section];
     elf_symbols := [target_symbol];
     elf_relocs := relocs |}.

(** The code section holds one absolute 64-bit relocation, at offset
    0x10. *)
Definition one_absolute : ElfImage := image_with [reloc_at 0x10 1].


End Scenario.

(** * Properties of the logging hub *)
Module LogProps.
Import Buf Log.

(** ** Buffers *)

(** A buffer whose first [n] bytes are not NUL and whose byte [n] is NUL
    holds a C string of exactly these [n] bytes. *)
Lemma c_string_prefix (s rest : list byte) :
  Forall (fun b => b <> NUL) s -> c_string (s ++ NUL :: rest) = s.
Proof.
  induction 1 as [|b s Hb _ IH]; simpl; [done|].
  destruct (Z.eqb_spec b NUL); [done|]. by rewrite IH.
Qed.

Lemma c_string_take (buf : list byte) (n : nat) :
  Forall (fun b => b <> NUL) (take n buf) -> buf !! n = Some NUL ->
  c_string buf = take n buf.
Proof.
  intros Hnz Hn.
  rewrite <- (take_drop_middle buf n NUL Hn) at 1.
  by apply c_string_prefix.
Qed.

(** ** syslog_vformat *)

(** The end of [syslog_vformat]: the newline is appended, over the last
    character when the buffer is full. *)
Lemma newline_step (s rest : list byte) (buflen : Z) :
  let buf := s ++ NUL :: rest in
  let len := Z.of_nat (length s) in
  1 <= len -> Z.of_nat (length buf) = buflen ->
  forall buf' len',
  (if negb (load buf (len - 1) =? NEWLINE) then
     let len := if len + 1 =? buflen then len - 1 else len in
     let msgbuf := store buf len NEWLINE in
     let len := len + 1 in
     let msgbuf := store msgbuf len NUL in
     (msgbuf, len)
   else (buf, len)) = (buf', len') ->
  length buf' = length buf /\
  (Forall (fun b => b <> NUL) s -> delivered_ok buf' len').
Proof.
  intros buf len Hlen Hbuflen buf' len'.
  assert (Hlb : length buf = S (length s + length rest)).
  { unfold buf. rewrite length_app. simpl. lia. }
  assert (Htake : take (length s) buf = s) by apply take_app_length.
  assert (Hnul : buf !! length s = Some NUL) by apply list_lookup_middle, eq_refl.
  destruct (Z.eqb_spec (load buf (len - 1)) NEWLINE) as [Hnl|Hnl]; simpl.
  - intros [= <- <-]. split; [done|]. intros Hnz.
    unfold delivered_ok. subst len. rewrite Nat2Z.id.
    repeat split; try lia; try done.
    + by rewrite Htake.
    + unfold load in Hnl.
      destruct (buf !! Z.to_nat (Z.of_nat (length s) - 1)) as [b|] eqn:Hb;
        simpl in Hnl; [by subst b | done].
  - set (len3 := if len + 1 =? buflen then len - 1 else len).
    intros [= <- <-].
    assert (H3 : 0 <= len3 <= len /\ len3 + 1 < buflen).
    { unfold len3. destruct (Z.eqb_spec (len + 1) buflen); lia. }
    unfold store. rewrite !length_insert. split; [done|]. intros Hnz.
    unfold delivered_ok. rewrite !length_insert.
    replace (len3 + 1 - 1) with len3 by lia.
    replace (Z.to_nat (len3 + 1)) with (S (Z.to_nat len3)) by lia.
    repeat split; try lia.
    + rewrite take_insert_ge by lia.
      rewrite (take_S_r _ _ NEWLINE).
      * apply Forall_app. split; [|by repeat constructor].
        rewrite take_insert_ge by lia.
        replace (Z.to_nat len3) with (Z.to_nat len3 `min` length s)%nat by lia.
        rewrite <- take_take, Htake. by apply Forall_take.
      * apply list_lookup_insert_eq. lia.
    + apply list_lookup_insert_eq. rewrite length_insert. lia.
    + rewrite list_lookup_insert_ne by lia.
      apply list_lookup_insert_eq. lia.
Qed.

Lemma c_snprintf_some (buf : list byte) off size out :
  0 < size ->
  c_snprintf buf off size (Some out) =
    (take off buf ++ take (Z.to_nat (size - 1)) out ++
       NUL :: drop (off + S (length (take (Z.to_nat (size - 1)) out))) buf,
     Z.of_nat (length out)).
Proof.
  intros Hsize. unfold c_snprintf, write_at.
  destruct (Z.leb_spec size 0); [lia|].
  rewrite length_app, <- app_assoc. simpl.
  by rewrite Nat.add_1_r.
Qed.

Lemma syslog_header_length level prefix :
  (3 <= length (syslog_header level prefix))%nat.
Proof. unfold syslog_header. rewrite length_app. simpl. lia. Qed.

Lemma syslog_header_nonzero level prefix :
  IS_SYSLOG_LEVEL level = true ->
  Forall (fun b => b <> NUL) (default [] prefix) ->
  Forall (fun b => b <> NUL) (syslog_header level prefix).
Proof.
  unfold IS_SYSLOG_LEVEL, LOG_EMERG, LOG_DEBUG, syslog_header, NUL.
  intros Hlvl Hp. apply andb_true_iff in Hlvl as [H0 H7].
  apply Z.leb_le in H0, H7.
  apply Forall_app. split; [|done].
  repeat constructor; lia.
Qed.

(** The buffer keeps its size, and a formatted message has the shape
    [delivered_ok] when the expansions hold no NUL. *)
Lemma syslog_vformat_shape (buf : list byte) buflen level prefix body buf' len :
  Z.of_nat (length buf) = buflen ->
  syslog_vformat buf buflen level prefix body = (buf', len) ->
  length buf' = length buf /\
  (0 < len ->
   Forall (fun b => b <> NUL) (default [] prefix) ->
   (forall text, body = Some text -> Forall (fun b => b <> NUL) text) ->
   delivered_ok buf' len).
Proof.
  intros Hbuflen. unfold syslog_vformat.
  destruct (Z.ltb_spec buflen SYSLOG_EMPTY_MSG_SIZE) as [|Hlen5];
    cbn [orb negb].
  { intros [= <- <-]. split; [done | lia]. }
  destruct (IS_SYSLOG_LEVEL level) eqn:Hlvl; cbn [orb negb].
  2:{ intros [= <- <-]. split; [done | lia]. }
  unfold SYSLOG_EMPTY_MSG_SIZE in Hlen5.
  rewrite c_snprintf_some by lia.
  pose proof (syslog_header_length level prefix) as Hh3.
  set (hdr := syslog_header level prefix) in *.
  destruct (Z.eqb_spec (Z.of_nat (length hdr)) (-1)); [lia|].
  set (H := take (Z.to_nat (buflen - 1)) hdr).
  assert (HlenH : Z.of_nat (length H) = Z.min (Z.of_nat (length hdr)) (buflen - 1)).
  { unfold H. rewrite length_take. lia. }
  rewrite <- HlenH.
  destruct (Z.leb_spec (Z.of_nat (length H) + 1) buflen); [|lia].
  simpl take at 1. rewrite app_nil_l.
  set (buf1 := H ++ NUL :: _).
  assert (Hlen1 : length buf1 = length buf).
  { unfold buf1. rewrite length_app. simpl. rewrite length_drop. lia. }
  destruct body as [text|]; simpl.
  2:{ intros [= <- <-]. split; [done | lia]. }
  destruct (Z.leb_spec (buflen - Z.of_nat (length H)) 0); [lia|].
  destruct (Z.eqb_spec (Z.of_nat (length text)) (-1)); [lia|].
  rewrite Nat2Z.id.
  set (B := take (Z.to_nat (buflen - Z.of_nat (length H) - 1)) text).
  assert (HlenB : Z.of_nat (length B) =
            Z.min (Z.of_nat (length text)) (buflen - Z.of_nat (length H) - 1)).
  { unfold B. rewrite length_take. lia. }
  rewrite <- HlenB.
  unfold write_at. rewrite length_app. simpl length.
  replace (take (length H) buf1) with H
    by (unfold buf1; by rewrite take_app_length).
  set (rest := drop _ buf1).
  replace (H ++ (B ++ [NUL]) ++ rest) with ((H ++ B) ++ NUL :: rest)
    by (by rewrite <- !app_assoc).
  replace (Z.of_nat (length H) + Z.of_nat (length B))
    with (Z.of_nat (length (H ++ B))) by (rewrite length_app; lia).
  assert (Hlen2 : length ((H ++ B) ++ NUL :: rest) = length buf).
  { rewrite <- Hlen1. unfold rest.
    rewrite !length_app. simpl. rewrite length_drop. lia. }
  intros Hres.
  apply (newline_step (H ++ B) rest buflen) in Hres as [Hl Hok].
  - split; [congruence|]. intros _ Hp Ht. apply Hok.
    apply Forall_app. split.
    + apply Forall_take. by apply syslog_header_nonzero.
    + apply Forall_take. by apply Ht.
  - rewrite length_app. lia.
  - lia.
Qed.

(** ** What [syslog_vformat] leaves in the buffer *)

Lemma load_last (s rest : list byte) :
  s <> [] ->
  load (s ++ NUL :: rest) (Z.of_nat (length s) - 1) = default 0 (last s).
Proof.
  intros Hne. unfold load, byte in *. rewrite last_lookup.
  assert (0 < length s)%nat by (destruct s; [done | cbn; lia]).
  replace (Z.to_nat (Z.of_nat (length s) - 1))
    with (Init.Nat.pred (length s))
    by (destruct (length s); [reflexivity | simpl Init.Nat.pred; lia]).
  rewrite lookup_app_l; [done|].
  apply Nat.lt_pred_l. lia.
Qed.

(** The end of [syslog_vformat], with what it leaves in the buffer. *)
Lemma newline_step_content (s rest : list byte) (buflen : Z) :
  let buf := s ++ NUL :: rest in
  let len := Z.of_nat (length s) in
  1 <= len -> Z.of_nat (length buf) = buflen ->
  forall buf' len',
  (if negb (load buf (len - 1) =? NEWLINE) then
     let len := if len + 1 =? buflen then len - 1 else len in
     let msgbuf := store buf len NEWLINE in
     let len := len + 1 in
     let msgbuf := store msgbuf len NUL in
     (msgbuf, len)
   else (buf, len)) = (buf', len') ->
  let m := if bool_decide (last s = Some NEWLINE) then s
           else if len + 1 =? buflen then take (length s - 1) s ++ [NEWLINE]
           else s ++ [NEWLINE] in
  take (Z.to_nat len') buf' = m /\
  buf' !! Z.to_nat len' = Some NUL /\
  len' = Z.of_nat (length m).
Proof.
  intros buf len Hlen Hbuflen buf' len'.
  assert (Hne : s <> []) by (intros ->; cbn in *; lia).
  assert (Hlb : length buf = S (length s + length rest)).
  { unfold buf. rewrite length_app. simpl. lia. }
  assert (Htake : take (length s) buf = s) by apply take_app_length.
  assert (Hnul : buf !! length s = Some NUL) by apply list_lookup_middle, eq_refl.
  change (load buf (len - 1))
    with (load (s ++ NUL :: rest) (Z.of_nat (length s) - 1)).
  rewrite load_last by done.
  destruct (last s) as [x|] eqn:Hlast; [|by apply last_None in Hlast].
  cbn [default from_option id].
  destruct (Z.eqb_spec x NEWLINE) as [->|Hx]; cbn [negb]; cbv iota.
  - intros [= <- <-]. rewrite bool_decide_eq_true_2 by done.
    subst len. rewrite Nat2Z.id. by repeat split.
  - rewrite bool_decide_eq_false_2 by congruence.
    set (len3 := if len + 1 =? buflen then len - 1 else len).
    intros [= <- <-].
    assert (H3 : 0 <= len3 <= len /\ len3 + 1 < buflen).
    { unfold len3. destruct (Z.eqb_spec (len + 1) buflen); lia. }
    assert (Hm : take (Z.to_nat len3) buf ++ [NEWLINE] =
                 if len + 1 =? buflen
                 then take (length s - 1) s ++ [NEWLINE]
                 else s ++ [NEWLINE]).
    { unfold len3. destruct (Z.eqb_spec (len + 1) buflen).
      - replace (Z.to_nat (len - 1)) with (length s - 1)%nat by lia.
        unfold buf. by rewrite take_app_le by lia.
      - replace (Z.to_nat len) with (length s) by lia. by rewrite Htake. }
    rewrite <- Hm. unfold store.
    replace (Z.to_nat (len3 + 1)) with (S (Z.to_nat len3)) by lia.
    repeat split.
    + rewrite take_insert_ge by lia.
      rewrite (take_S_r _ _ NEWLINE)
        by (apply list_lookup_insert_eq; lia).
      by rewrite take_insert_ge by lia.
    + apply list_lookup_insert_eq. rewrite length_insert. lia.
    + rewrite length_app, length_take. cbn. lia.
Qed.

(** What [syslog_vformat] leaves in the buffer when the formatting
    succeeds: [formatted_message], then a NUL. *)
Lemma syslog_vformat_content (buf : list byte) buflen level prefix text
    buf' len :
  Z.of_nat (length buf) = buflen ->
  SYSLOG_EMPTY_MSG_SIZE <= buflen -> IS_SYSLOG_LEVEL level = true ->
  syslog_vformat buf buflen level prefix (Some text) = (buf', len) ->
  take (Z.to_nat len) buf' = formatted_message buflen level prefix text /\
  buf' !! Z.to_nat len = Some NUL /\
  len = Z.of_nat (length (formatted_message buflen level prefix text)).
Proof.
  intros Hbuflen Hlen5 Hlvl. unfold syslog_vformat.
  destruct (Z.ltb_spec buflen SYSLOG_EMPTY_MSG_SIZE); [lia|].
  rewrite Hlvl. cbn [orb negb].
  unfold SYSLOG_EMPTY_MSG_SIZE in Hlen5.
  rewrite c_snprintf_some by lia.
  pose proof (syslog_header_length level prefix) as Hh3.
  unfold formatted_message.
  set (hdr := syslog_header level prefix) in *.
  destruct (Z.eqb_spec (Z.of_nat (length hdr)) (-1)); [lia|].
  set (Hd := take (Z.to_nat (buflen - 1)) hdr).
  assert (HlenH : Z.of_nat (length Hd) = Z.min (Z.of_nat (length hdr)) (buflen - 1)).
  { unfold Hd. rewrite length_take. lia. }
  rewrite <- HlenH.
  destruct (Z.leb_spec (Z.of_nat (length Hd) + 1) buflen); [|lia].
  simpl take at 1. rewrite app_nil_l.
  set (buf1 := Hd ++ NUL :: _).
  assert (Hlen1 : length buf1 = length buf).
  { unfold buf1. rewrite length_app. simpl. rewrite length_drop. lia. }
  rewrite c_snprintf_some by lia.
  destruct (Z.eqb_spec (Z.of_nat (length text)) (-1)); [lia|].
  rewrite Nat2Z.id.
  set (Bd := take (Z.to_nat (buflen - Z.of_nat (length Hd) - 1)) text).
  assert (HlenB : Z.of_nat (length Bd) =
            Z.min (Z.of_nat (length text)) (buflen - Z.of_nat (length Hd) - 1)).
  { unfold Bd. rewrite length_take. lia. }
  rewrite <- HlenB.
  replace (take (length Hd) buf1) with Hd
    by (unfold buf1; by rewrite take_app_length).
  set (rest := drop _ buf1).
  replace (Hd ++ Bd ++ NUL :: rest) with ((Hd ++ Bd) ++ NUL :: rest)
    by (by rewrite <- !app_assoc).
  replace (Z.of_nat (length Hd) + Z.of_nat (length Bd))
    with (Z.of_nat (length (Hd ++ Bd))) by (rewrite length_app; lia).
  assert (Hlen2 : length ((Hd ++ Bd) ++ NUL :: rest) = length buf).
  { rewrite <- Hlen1. unfold rest.
    rewrite !length_app. simpl. rewrite length_drop. lia. }
  assert (HS : take (Z.to_nat (buflen - 1)) (hdr ++ text) = Hd ++ Bd).
  { rewrite take_app. unfold Hd at 1, Bd. f_equal. f_equal.
    clearbody Hd. lia. }
  rewrite HS.
  intros Hres.
  apply (newline_step_content (Hd ++ Bd) rest buflen) in Hres; [done|..].
  - rewrite length_app. lia.
  - lia.
Qed.

Lemma clamp_level_ok level : IS_SYSLOG_LEVEL (clamp_level level) = true.
Proof.
  unfold clamp_level. destruct (IS_SYSLOG_LEVEL level) eqn:E; cbn; [done|].
  reflexivity.
Qed.

(** Header and text fit, with room for a newline: nothing is cut. *)
Lemma formatted_message_fits buflen level prefix text :
  let full := syslog_header level prefix ++ text in
  Z.of_nat (length full) + 2 <= buflen ->
  formatted_message buflen level prefix text =
    if bool_decide (last full = Some NEWLINE) then full
    else full ++ [NEWLINE].
Proof.
  intros full Hfit. unfold formatted_message. fold full.
  rewrite take_ge by lia.
  case_bool_decide; [done|].
  destruct (Z.eqb_spec (Z.of_nat (length full) + 1) buflen); [lia | done].
Qed.

(** Header and text fill the buffer: the message is cut to [buflen - 2]
    characters and the newline. *)
Lemma formatted_message_cut buflen level prefix text :
  let full := syslog_header level prefix ++ text in
  2 <= buflen -> buflen - 1 <= Z.of_nat (length full) ->
  formatted_message buflen level prefix text =
    take (Z.to_nat (buflen - 2)) full ++ [NEWLINE].
Proof.
  intros full Hbuflen Hlong. unfold formatted_message. fold full.
  set (s := take (Z.to_nat (buflen - 1)) full).
  assert (Hlen : length s = Z.to_nat (buflen - 1))
    by (unfold s; rewrite length_take; lia).
  assert (Htake : take (length s - 1) s = take (Z.to_nat (buflen - 2)) full).
  { unfold s at 2. rewrite take_take. f_equal. lia. }
  case_bool_decide as Hlast.
  - apply last_Some in Hlast as [s' Hs'].
    rewrite <- Htake, Hs'. rewrite length_app. cbn [length].
    replace (length s' + 1 - 1)%nat with (length s') by lia.
    by rewrite take_app_length.
  - destruct (Z.eqb_spec (Z.of_nat (length s) + 1) buflen); [|lia].
    by rewrite Htake.
Qed.

Lemma last_header_text level (text : list byte) :
  last (syslog_header level None ++ text) = Some NEWLINE <->
  last text = Some NEWLINE.
Proof.
  unfold syslog_header. cbn [default from_option id]. rewrite app_nil_r.
  destruct text as [|b text _] using rev_ind.
  - cbn. split; intros [=].
  - by rewrite app_assoc, !last_snoc.
Qed.

(** The message starts with the header, and is at least four characters
    long. *)
Lemma formatted_message_header buflen level prefix text :
  SYSLOG_EMPTY_MSG_SIZE <= buflen ->
  take 3 (formatted_message buflen level prefix text) = [60; 48 + level; 62] /\
  4 <= Z.of_nat (length (formatted_message buflen level prefix text))
    <= buflen - 1.
Proof.
  unfold SYSLOG_EMPTY_MSG_SIZE. intros Hlen5.
  assert (Hfull : syslog_header level prefix ++ text =
                  [60; 48 + level; 62] ++ (default [] prefix ++ text))
    by (unfold syslog_header; by rewrite <- app_assoc).
  revert Hfull. generalize (default [] prefix ++ text) as tail.
  intros tail Hfull.
  destruct (Z.le_gt_cases
              (Z.of_nat (length (syslog_header level prefix ++ text)) + 2)
              buflen) as [Hfit|Hcut].
  - rewrite formatted_message_fits by done.
    rewrite Hfull in *. clear Hfull.
    case_bool_decide as Hlast; (split; [done|]).
    + destruct tail; [cbn in Hlast; unfold NEWLINE in Hlast; congruence|].
      rewrite length_app in *. cbn [length] in *. lia.
    + rewrite !length_app in *. cbn [length] in *. lia.
  - rewrite formatted_message_cut by lia.
    rewrite Hfull in *. clear Hfull.
    rewrite !length_app, length_take in *. cbn [length] in *.
    split; [|rewrite length_app; cbn [length]; lia].
    rewrite take_app_le
      by (rewrite length_take, length_app; cbn [length]; lia).
    rewrite take_take.
    replace (3 `min` Z.to_nat (buflen - 2))%nat with 3%nat by lia.
    done.
Qed.


Lemma syslog_vformat_none (buf : list byte) buflen level prefix :
  snd (syslog_vformat buf buflen level prefix None) = 0.
Proof.
  unfold syslog_vformat.
  destruct (_ || _); [done|].
  destruct (c_snprintf buf 0 buflen _) as [buf1 n].
  destruct (n =? -1); [done|].
  destruct (Z.leb_spec (Z.min n (buflen - 1) + 1) buflen); [done | lia].
Qed.


(** ** The console table *)

Lemma unsubscribe_table cb c0 c1 :
  unsubscribe_loop cb [c0; c1] 0 CONSOLES_MAX_NR =
    if notify c0 =? cb then [free_console; c1]
    else if notify c1 =? cb then [c0; free_console]
    else [c0; c1].
Proof. simpl. by repeat case_match. Qed.

Lemma subscribe_table cb lvl c0 c1 :
  subscribe_loop cb lvl [c0; c1] 0 CONSOLES_MAX_NR =
    if notify c0 =? NULL
    then (ERR_SUCCESS, [{| notify := cb; maxlevel := lvl |}; c1])
    else if notify c1 =? NULL
    then (ERR_SUCCESS, [c0; {| notify := cb; maxlevel := lvl |}])
    else (ERR_OUT_OF_RESOURCES, [c0; c1]).
Proof. simpl. by repeat case_match. Qed.

Ltac table_cases :=
  repeat match goal with
  | |- context [Z.eqb ?a ?b] => destruct (Z.eqb_spec a b)
  | H : context [Z.eqb ?a ?b] |- _ => destruct (Z.eqb_spec a b)
  end.

Lemma unsubscribe_table_ok cb cs :
  table_ok cs -> table_ok (unsubscribe_loop cb cs 0 CONSOLES_MAX_NR).
Proof.
  intros (c0 & c1 & -> & Hne). rewrite unsubscribe_table.
  table_cases; eexists _, _; (split; [reflexivity|]); simpl;
    first [done | intros; congruence].
Qed.

Lemma subscribe_table_ok cb lvl cs :
  table_ok cs ->
  table_ok (snd (subscribe_loop cb lvl
                   (unsubscribe_loop cb cs 0 CONSOLES_MAX_NR)
                   0 CONSOLES_MAX_NR)).
Proof.
  intros (c0 & c1 & -> & Hne). rewrite unsubscribe_table.
  destruct (Z.eqb_spec (notify c0) cb);
    [|destruct (Z.eqb_spec (notify c1) cb)];
    rewrite subscribe_table; cbn [notify free_console]; table_cases;
    cbn [snd]; eexists _, _; (split; [reflexivity|]); cbn [notify];
    unfold NULL in *; intros; try reflexivity; cbn in *; subst;
    first [done | congruence | lia | (symmetry; apply Hne; congruence)
          | (apply Hne; congruence)].
Qed.

Lemma reachable_inv st :
  reachable st ->
  table_ok (consoles st) /\ length (message st) = Z.to_nat LOG_MAX_LEN.
Proof.
  induction 1 as [|cb lvl st _ [IHt IHm]|cb st _ [IHt IHm]
                  |lvl body st _ [IHt IHm]].
  - split; [|apply length_replicate].
    exists free_console, free_console. by split.
  - unfold log_subscribe. destruct (subscribe_loop _ _ _ _ _) as [r cs] eqn:E.
    simpl. split; [|done].
    pose proof (subscribe_table_ok cb
      (if negb (IS_SYSLOG_LEVEL lvl) then LOG_DEBUG else lvl) _ IHt) as Hok.
    simpl in E. simpl in Hok. by rewrite E in Hok.
  - split; [|done]. by apply unsubscribe_table_ok.
  - unfold Log.
    destruct (syslog_vformat _ _ _ _ _) as [msg len] eqn:E.
    apply syslog_vformat_shape in E as [Hl _]; [|rewrite IHm; unfold LOG_MAX_LEN; lia].
    by destruct (_ <=? 1); simpl; split; try congruence.
Qed.


Lemma slots_of_two cb c0 c1 :
  slots_of cb [c0; c1] =
    ((if decide (notify c0 = cb) then 1 else 0) +
     (if decide (notify c1 = cb) then 1 else 0))%nat.
Proof.
  unfold slots_of. rewrite !filter_cons, filter_nil.
  by repeat case_decide.
Qed.

Lemma occupied_two c0 c1 :
  occupied [c0; c1] =
    ((if decide (notify c0 = NULL) then 0 else 1) +
     (if decide (notify c1 = NULL) then 0 else 1))%nat.
Proof.
  unfold occupied. rewrite !filter_cons, filter_nil.
  by repeat case_decide.
Qed.

Ltac table_auto :=
  cbn [fst snd consoles notify maxlevel free_console] in *;
  rewrite ?slots_of_two, ?occupied_two in *;
  cbn [fst snd consoles notify maxlevel free_console] in *;
  repeat case_decide; unfold NULL in *; subst;
  try first [done | congruence | lia].

Lemma log_unsubscribe_two cb msg c0 c1 :
  log_unsubscribe cb {| message := msg; consoles := [c0; c1] |} =
    {| message := msg;
       consoles := if notify c0 =? cb then [free_console; c1]
                   else if notify c1 =? cb then [c0; free_console]
                   else [c0; c1] |}.
Proof. unfold log_unsubscribe. cbn [consoles message]. by rewrite unsubscribe_table. Qed.

Lemma log_subscribe_two cb lvl msg c0 c1 :
  log_subscribe cb lvl {| message := msg; consoles := [c0; c1] |} =
    let new := {| notify := cb; maxlevel := clamp_level lvl |} in
    if notify c0 =? cb then
      (ERR_SUCCESS, {| message := msg; consoles := [new; c1] |})
    else if notify c1 =? cb then
      if notify c0 =? NULL
      then (ERR_SUCCESS, {| message := msg; consoles := [new; free_console] |})
      else (ERR_SUCCESS, {| message := msg; consoles := [c0; new] |})
    else if notify c0 =? NULL then
      (ERR_SUCCESS, {| message := msg; consoles := [new; c1] |})
    else if notify c1 =? NULL then
      (ERR_SUCCESS, {| message := msg; consoles := [c0; new] |})
    else (ERR_OUT_OF_RESOURCES, {| message := msg; consoles := [c0; c1] |}).
Proof.
  unfold log_subscribe. rewrite log_unsubscribe_two.
  cbn [consoles message]. fold (clamp_level lvl).
  destruct (Z.eqb_spec (notify c0) cb);
    [|destruct (Z.eqb_spec (notify c1) cb)];
    rewrite subscribe_table; cbn [notify free_console]; table_cases;
    try reflexivity; unfold NULL in *; try congruence.
Qed.

(** A registered callback is removed by [log_unsubscribe], which frees
    exactly the slot that held it. *)
Lemma unsubscribe_clears_one cb st :
  table_ok (consoles st) -> cb <> NULL ->
  slots_of cb (consoles st) = 1%nat ->
  slots_of cb (consoles (log_unsubscribe cb st)) = 0%nat /\
  (occupied (consoles (log_unsubscribe cb st)) + 1 =
     occupied (consoles st))%nat /\
  exists i c, consoles st !! i = Some c /\ notify c = cb /\
    consoles (log_unsubscribe cb st) = <[i := free_console]> (consoles st).
Proof.
  destruct st as [msg cs]. cbn [consoles].
  intros (c0 & c1 & -> & Hne) Hcb Hone.
  rewrite log_unsubscribe_two. cbn [consoles].
  destruct (Z.eqb_spec (notify c0) cb); [|destruct (Z.eqb_spec (notify c1) cb)].
  - split; [|split]; [table_auto; tauto | table_auto |].
    exists 0%nat, c0. by repeat split.
  - split; [|split]; [table_auto | table_auto |].
    exists 1%nat, c1. by repeat split.
  - table_auto.
Qed.

(** After a successful [log_subscribe] the callback is registered once,
    with the clamped level. *)
Lemma subscribe_registers_once cb lvl st :
  table_ok (consoles st) -> cb <> NULL ->
  fst (log_subscribe cb lvl st) = ERR_SUCCESS ->
  slots_of cb (consoles (snd (log_subscribe cb lvl st))) = 1%nat /\
  exists i, consoles (snd (log_subscribe cb lvl st)) !! i =
              Some {| notify := cb; maxlevel := clamp_level lvl |}.
Proof.
  destruct st as [msg cs]. cbn [consoles].
  intros (c0 & c1 & -> & Hne) Hcb.
  rewrite log_subscribe_two. cbn zeta.
  table_cases; cbn [fst snd consoles]; intros Hs; try done;
    (split; [table_auto; try tauto | first [by exists 0%nat | by exists 1%nat]]).
Qed.

(** A callback that is registered can always be registered again. *)
Lemma resubscribe_succeeds cb lvl st :
  table_ok (consoles st) -> cb <> NULL ->
  slots_of cb (consoles st) = 1%nat ->
  fst (log_subscribe cb lvl st) = ERR_SUCCESS.
Proof.
  destruct st as [msg cs]. cbn [consoles].
  intros (c0 & c1 & -> & Hne) Hcb Hone.
  rewrite log_subscribe_two. cbn zeta.
  table_cases; cbn [fst]; try done; table_auto.
Qed.

(** [log_subscribe] runs out of slots exactly when the two slots hold two
    different callbacks, both other than the one being registered. *)
Lemma subscribe_out_of_resources cb lvl st :
  table_ok (consoles st) ->
  fst (log_subscribe cb lvl st) = ERR_OUT_OF_RESOURCES <->
  exists c0 c1, consoles st = [c0; c1] /\
    notify c0 <> NULL /\ notify c1 <> NULL /\
    notify c0 <> cb /\ notify c1 <> cb /\ notify c0 <> notify c1.
Proof.
  destruct st as [msg cs]. cbn [consoles].
  intros (c0 & c1 & -> & Hne). rewrite log_subscribe_two. cbn zeta. split.
  - table_cases; cbn [fst]; intros Hs; try done.
    exists c0, c1. repeat split; try done. intros Heq. by apply Hne in Heq.
  - intros (d0 & d1 & [= <- <-] & H0 & H1 & Hc0 & Hc1 & _).
    by table_cases.
Qed.

(** C8: the console table holds each callback at most once.  In every
    state of the hub and for every callback (a non-NULL routine address):
    the callback occupies at most one slot; [log_subscribe] first removes
    the existing registration, so that subscribing a registered callback
    again succeeds, and a successful subscription leaves the callback in
    exactly one slot with the (clamped) level just given;
    ERR_OUT_OF_RESOURCES is returned exactly when both slots hold two
    distinct other callbacks; and [log_unsubscribe] of the callback just
    subscribed frees exactly one slot, the one that held it. *)
Theorem console_table_holds_callback_once
    (st : state) (cb : log_callback_t) (lvl : Z) :
  reachable st -> cb <> NULL ->
  let r := log_subscribe cb lvl st in
  (slots_of cb (consoles st) <= 1)%nat /\
  (slots_of cb (consoles st) = 1%nat -> fst r = ERR_SUCCESS) /\
  (fst r = ERR_SUCCESS ->
     slots_of cb (consoles (snd r)) = 1%nat /\
     exists i, consoles (snd r) !! i =
                 Some {| notify := cb;
                         maxlevel := if negb (IS_SYSLOG_LEVEL lvl)
                                     then LOG_DEBUG else lvl |}) /\
  (fst r = ERR_OUT_OF_RESOURCES <->
     exists c0 c1, consoles st = [c0; c1] /\
       notify c0 <> NULL /\ notify c1 <> NULL /\
       notify c0 <> cb /\ notify c1 <> cb /\ notify c0 <> notify c1) /\
  (fst r = ERR_SUCCESS ->
     let st' := log_unsubscribe cb (snd r) in
     slots_of cb (consoles st') = 0%nat /\
     (occupied (consoles st') + 1 = occupied (consoles (snd r)))%nat /\
     exists i c, consoles (snd r) !! i = Some c /\ notify c = cb /\
       consoles st' = <[i := free_console]> (consoles (snd r))).
Proof.
  intros Hreach Hcb r.
  pose proof (reachable_inv _ Hreach) as [Hok _].
  pose proof (reachable_inv _ (reach_subscribe cb lvl st Hreach)) as [Hok' _].
  fold r in Hok'.
  repeat split.
  - destruct Hok as (c0 & c1 & Hcs & Hne). rewrite Hcs. table_auto.
  - by apply resubscribe_succeeds.
  - by apply subscribe_registers_once.
  - by apply subscribe_registers_once.
  - by apply subscribe_out_of_resources.
  - by apply subscribe_out_of_resources.
  - apply unsubscribe_clears_one; try done. by apply subscribe_registers_once.
  - apply unsubscribe_clears_one; try done. by apply subscribe_registers_once.
  - apply unsubscribe_clears_one; try done. by apply subscribe_registers_once.
Qed.

Lemma console_table_holds_callback_once_witness :
  let st := snd (log_subscribe 100%Z 3 initial_state) in
  reachable st /\ 100%Z <> NULL /\
  (slots_of 100%Z (consoles st) <= 1)%nat /\
  fst (log_subscribe 100%Z 9 st) = ERR_SUCCESS.
Proof.
  intros st.
  assert (Hr : reachable st) by apply reach_subscribe, reach_init.
  assert (Hcb : 100%Z <> NULL) by (unfold NULL; lia).
  destruct (console_table_holds_callback_once st 100%Z 9 Hr Hcb)
    as (Hle & Hre & _).
  split; [exact Hr | split; [exact Hcb | split; [exact Hle |]]].
  apply Hre. reflexivity.
Defined.

(** ** Log *)

Lemma delivered_ok_string (buf : list byte) len :
  delivered_ok buf len ->
  nul_terminated buf /\ c_string buf = take (Z.to_nat len) buf /\
  last (c_string buf) = Some NEWLINE /\
  Z.of_nat (length (c_string buf)) = len.
Proof.
  intros (Hlen & Hnz & Hnul & Hnl).
  assert (Hs : c_string buf = take (Z.to_nat len) buf) by by apply c_string_take.
  assert (Hl : length (take (Z.to_nat len) buf) = Z.to_nat len)
    by (rewrite length_take; lia).
  split; [by exists (Z.to_nat len)|]. split; [done|]. rewrite Hs. split.
  - rewrite last_lookup, Hl, lookup_take_lt by lia.
    by replace (Init.Nat.pred (Z.to_nat len)) with (Z.to_nat (len - 1)) by lia.
  - lia.
Qed.

Lemma notify_loop_two level msg c0 c1 :
  notify_loop level msg [c0; c1] 0 CONSOLES_MAX_NR =
    (if negb (notify c0 =? NULL) && (level <=? maxlevel c0)
     then [(notify c0, msg)] else []) ++
    (if negb (notify c1 =? NULL) && (level <=? maxlevel c1)
     then [(notify c1, msg)] else []).
Proof. simpl. by repeat case_match. Qed.

Lemma calls_of_app cb (l k : list call) :
  calls_of cb (l ++ k) = (calls_of cb l + calls_of cb k)%nat.
Proof. unfold calls_of. by rewrite filter_app, length_app. Qed.

Lemma calls_of_one cb cb' (msg : list byte) :
  calls_of cb [(cb', msg)] = if decide (cb' = cb) then 1%nat else 0%nat.
Proof. unfold calls_of. rewrite filter_cons, filter_nil. simpl. by case_decide. Qed.

(** The string that starts at a buffer ends at the first NUL at the
    latest. *)
Lemma c_string_length_le (buf : list byte) :
  forall n : nat, buf !! n = Some NUL -> (length (c_string buf) <= n)%nat.
Proof.
  induction buf as [|b buf IH]; intros n Hn; [done|].
  cbn [c_string]. destruct (Z.eqb_spec b NUL) as [->|Hb]; [cbn; lia|].
  destruct n as [|n]; [cbn in Hn; congruence|].
  cbn [length]. specialize (IH n Hn). lia.
Qed.

(** A message of non-zero length is followed by a NUL inside the buffer,
    whatever the text holds. *)
Lemma syslog_vformat_terminated (buf : list byte) level body :
  Z.of_nat (length buf) = LOG_MAX_LEN ->
  let r := syslog_vformat buf LOG_MAX_LEN level None body in
  0 < snd r ->
  fst r !! Z.to_nat (snd r) = Some NUL /\ snd r < LOG_MAX_LEN.
Proof.
  intros Hbuflen r Hpos. subst r.
  assert (Hlen5 : SYSLOG_EMPTY_MSG_SIZE <= LOG_MAX_LEN)
    by (unfold SYSLOG_EMPTY_MSG_SIZE, LOG_MAX_LEN; lia).
  destruct body as [text|];
    [|rewrite syslog_vformat_none in Hpos; lia].
  destruct (IS_SYSLOG_LEVEL level) eqn:Hlvl.
  2:{ unfold syslog_vformat in Hpos. rewrite Hlvl, orb_true_r in Hpos.
      cbn in Hpos. lia. }
  destruct (syslog_vformat buf LOG_MAX_LEN level None (Some text))
    as [buf' len] eqn:Hv.
  destruct (syslog_vformat_content _ _ _ _ _ _ _ Hbuflen Hlen5 Hlvl Hv)
    as (_ & Hnul & Hlen).
  destruct (formatted_message_header LOG_MAX_LEN level None text Hlen5)
    as [_ Hrange].
  rewrite <- Hlen in Hrange. cbn [fst snd]. split; [done | lia].
Qed.

(** C9, as amended: for every call to [Log] whose formatting produces a
    non-empty message, the routine of a console slot is called exactly
    once when the slot is in use and the severity (LOG_DEBUG when the level
    given is outside 0..7) is at most the slot's maxlevel, and is not
    called otherwise; a callback that is not in the table is not called.
    Every console called is handed the message buffer, which holds a NUL,
    and the string in it is shorter than 1024 bytes, terminator excluded;
    it ends with a newline when the formatted text holds no NUL byte. *)
Theorem log_notifies_subscribed_consoles
    (st : state) (level : Z) (body : option (list byte)) :
  reachable st ->
  let lvl := if negb (IS_SYSLOG_LEVEL level) then LOG_DEBUG else level in
  0 < snd (syslog_vformat (message st) LOG_MAX_LEN lvl None body) ->
  let calls := snd (Log level body st) in
  (forall i c, consoles st !! i = Some c ->
     (notify c <> NULL /\ lvl <= maxlevel c -> calls_of (notify c) calls = 1%nat) /\
     (~ (notify c <> NULL /\ lvl <= maxlevel c) ->
        calls_of (notify c) calls = 0%nat)) /\
  (forall cb, slots_of cb (consoles st) = 0%nat -> calls_of cb calls = 0%nat) /\
  (forall cb msg, (cb, msg) ∈ calls ->
     msg = message (fst (Log level body st)) /\
     nul_terminated msg /\
     Z.of_nat (length (c_string msg)) < LOG_MAX_LEN /\
     ((forall text, body = Some text -> Forall (fun b => b <> NUL) text) ->
      last (c_string msg) = Some NEWLINE)).
Proof.
  intros Hreach lvl Hlen calls.
  pose proof (reachable_inv _ Hreach) as [(c0 & c1 & Hcs & Hne) Hmsg].
  assert (Hbuflen : Z.of_nat (length (message st)) = LOG_MAX_LEN)
    by (rewrite Hmsg; unfold LOG_MAX_LEN; lia).
  destruct (syslog_vformat_terminated (message st) lvl body Hbuflen Hlen)
    as [Hnul Hlt].
  subst calls. unfold Log in *. fold lvl.
  destruct (syslog_vformat (message st) LOG_MAX_LEN lvl None body)
    as [msg len] eqn:Hfmt.
  cbn [fst snd] in Hlen, Hnul, Hlt.
  destruct (Z.leb_spec (len + 1) 1); [lia|]. cbn [fst snd message].
  rewrite Hcs, notify_loop_two.
  apply syslog_vformat_shape in Hfmt as [Hl Hok]; [|done].
  specialize (Hok Hlen (Forall_nil_2 _)).
  split; [|split].
  - intros i c Hc.
    assert (Hc01 : c = c0 \/ c = c1).
    { destruct i as [|[|i]]; simpl in Hc; [left | right | done]; congruence. }
    rewrite calls_of_app.
    destruct (Z.eqb_spec (notify c0) NULL), (Z.eqb_spec (notify c1) NULL),
      (Z.leb_spec lvl (maxlevel c0)), (Z.leb_spec lvl (maxlevel c1));
      cbn [negb andb]; rewrite ?calls_of_one; unfold calls_of;
      rewrite ?filter_nil; cbn [length];
      destruct Hc01 as [-> | ->]; repeat case_decide; split; intros;
      first [lia | tauto | congruence | (exfalso; intuition congruence)].
  - intros cb. rewrite slots_of_two, calls_of_app.
    intros Hz.
    destruct (negb _ && _), (negb _ && _); rewrite ?calls_of_one;
      unfold calls_of; rewrite ?filter_nil; cbn [length];
      repeat case_decide; lia.
  - intros cb m Hin.
    assert (m = msg) as ->.
    { apply elem_of_app in Hin as [Hin | Hin];
        destruct (negb _ && _);
        first [by apply elem_of_nil in Hin
              |apply list_elem_of_singleton in Hin; congruence]. }
    split; [done|]. split; [by exists (Z.to_nat len)|]. split.
    + pose proof (c_string_length_le msg _ Hnul). lia.
    + intros Htext.
      by apply delivered_ok_string in Hok as (_ & _ & Hlast & _).
Qed.

Lemma log_notifies_subscribed_consoles_witness :
  let st := snd (log_subscribe 100%Z 3 initial_state) in
  let calls := snd (Log 2 (Some [104; 105]) st) in
  calls_of 100%Z calls = 1%nat /\
  (forall cb msg, (cb, msg) ∈ calls ->
     last (c_string msg) = Some NEWLINE /\
     Z.of_nat (length (c_string msg)) < LOG_MAX_LEN).
Proof.
  intros st calls.
  assert (Hr : reachable st) by apply reach_subscribe, reach_init.
  assert (Ht : forall text, Some [104; 105] = Some text ->
                 Forall (fun b => b <> NUL) text).
  { intros text [= <-]. repeat constructor; unfold NUL; lia. }
  assert (Hlen : 0 < snd (syslog_vformat (message st) LOG_MAX_LEN
                   (if negb (IS_SYSLOG_LEVEL 2) then LOG_DEBUG else 2)
                   None (Some [104; 105]))) by (vm_compute; reflexivity).
  destruct (log_notifies_subscribed_consoles st 2 (Some [104; 105])
              Hr Hlen) as (Hslot & _ & Hmsg).
  split.
  - apply (Hslot 0%nat {| notify := 100; maxlevel := 3 |}); [reflexivity|].
    split; [simpl; unfold NULL; lia | vm_compute; discriminate].
  - intros cb msg Hin. destruct (Hmsg cb msg Hin) as (_ & _ & Hl & Hn).
    split; [by apply Hn | done].
Defined.

(** A text with a NUL byte in it, as [Log(3, "%c%c%c", 'h', 0, 'i')]
    formats: the message has a non-zero length and the console is called,
    but the string it is handed stops at that NUL: it is ["<3>h"], and does
    not end with a newline.  [syslog_vformat] tests and sets the newline at
    the length [vsnprintf] returned, past the NUL. *)
Lemma log_embedded_nul_counterexample :
  let st := snd (log_subscribe 100%Z LOG_DEBUG initial_state) in
  let body := Some [104; 0; 105] in
  reachable st /\
  0 < snd (syslog_vformat (message st) LOG_MAX_LEN 3 None body) /\
  exists msg,
    snd (Log 3 body st) = [(100%Z, msg)] /\
    c_string msg = [60; 51; 62; 104] /\
    last (c_string msg) <> Some NEWLINE.
Proof.
  intros st body. split; [apply reach_subscribe, reach_init|].
  split; [by vm_compute|].
  eexists. split; [vm_compute; reflexivity|].
  split; [by vm_compute|].
  vm_compute. discriminate.
Qed.

End LogProps.

(** * Properties of the TMFIFO console *)
Module TmfifoProps.
Import Tmfifo.

(** The header word sent before each character: message type 3 in the low
    byte, payload length 1. *)
Lemma tx_header_data : header_data tx_header = 0x10003.
Proof. reflexivity. Qed.

Lemma writes_of_app (l k : list io_event) :
  writes_of (l ++ k) = writes_of l ++ writes_of k.
Proof. apply omap_app. Qed.

Lemma writes_of_polls (ss : list Z) :
  writes_of (map (IoRead TILE_TO_HOST_STATUS) ss) = [].
Proof. induction ss as [|s ss IH]; [done | exact IH]. Qed.

(** One iteration of the polling loop. *)
Lemma putc_loop_step (dev : device) (c : Z) (timeout : nat) hist :
  putc_loop dev c (S timeout) hist =
    let s := to_uint64 (dev hist TILE_TO_HOST_STATUS) in
    if s >? FIFO_LENGTH - 2 then
      (fst (putc_loop dev c timeout (hist ++ [IoRead TILE_TO_HOST_STATUS s])),
       IoRead TILE_TO_HOST_STATUS s ::
         snd (putc_loop dev c timeout (hist ++ [IoRead TILE_TO_HOST_STATUS s])))
    else (tt, IoRead TILE_TO_HOST_STATUS s :: send_char c).
Proof.
  cbn [putc_loop]. unfold mbind, io_bind, tmfifo_full.
  unfold mbind, io_bind, io_read64, mret, io_ret. cbn zeta.
  destruct (_ >? _); cbn [negb]; [|reflexivity].
  rewrite !app_nil_r. by destruct (putc_loop _ _ _ _).
Qed.

Lemma tmfifo_putc_unfold (dev : device) (c : Z) hist :
  snd (tmfifo_putc dev c hist) =
    let v := to_uint64 (dev hist SCRATCHPAD1) in
    IoRead SCRATCHPAD1 v ::
      (if v =? 0 then []
       else snd (putc_loop dev c (Z.to_nat 0xffff)
                   (hist ++ [IoRead SCRATCHPAD1 v]))).
Proof.
  unfold tmfifo_putc, mbind, io_bind, tmfifo_connected.
  unfold mbind, io_bind, io_read64, mret, io_ret. cbn zeta.
  destruct (_ =? 0); cbn [negb]; [reflexivity|].
  rewrite !app_nil_r. by destruct (putc_loop _ _ _ _).
Qed.

(** The polling loop reads the status register until it finds the FIFO
    not full, and then sends the character; after [timeout] polls that
    found it full it gives up. *)
Lemma putc_loop_events (dev : device) (c : Z) (timeout : nat) :
  forall hist, exists ss,
    Forall fifo_full ss /\
    (((length ss < timeout)%nat /\ exists s, ~ fifo_full s /\
        snd (putc_loop dev c timeout hist) =
          map (IoRead TILE_TO_HOST_STATUS) ss ++
          IoRead TILE_TO_HOST_STATUS s :: send_char c) \/
     (length ss = timeout /\
        snd (putc_loop dev c timeout hist) =
          map (IoRead TILE_TO_HOST_STATUS) ss)).
Proof.
  induction timeout as [|t IH]; intros hist.
  - exists []. split; [constructor|]. right. by split.
  - rewrite putc_loop_step. cbn zeta.
    set (s := to_uint64 (dev hist TILE_TO_HOST_STATUS)).
    destruct (Z.gtb_spec s (FIFO_LENGTH - 2)) as [Hfull|Hfree]; cbn [snd].
    + destruct (IH (hist ++ [IoRead TILE_TO_HOST_STATUS s]))
        as (ss & Hss & Hcase).
      exists (s :: ss). split; [constructor; [unfold fifo_full; lia | done]|].
      destruct Hcase as [(Hlt & s' & Hs' & ->) | (Hlen & ->)].
      * left. split; [simpl; lia|]. by exists s'.
      * right. split; [simpl; lia | reflexivity].
    + exists []. split; [constructor|]. left. split; [simpl; lia|].
      exists s. split; [unfold fifo_full; lia | done].
Qed.

(** C10: [tmfifo_putc] reads SCRATCHPAD1 once.  When it reads zero (no
    remote end) nothing else happens.  Otherwise it polls the status
    register: at the first poll among the 0xffff that finds the TX FIFO not
    full it makes exactly two writes, both to TILE_TO_HOST_DATA, the
    constant header word first and then the character, and returns; when
    all 0xffff polls find the FIFO full it writes no register. *)
Theorem tmfifo_putc_register_writes (dev : device) (c : Z)
    (hist : list io_event) :
  let evs := snd (tmfifo_putc dev c hist) in
  let v := to_uint64 (dev hist SCRATCHPAD1) in
  (v = 0 /\ evs = [IoRead SCRATCHPAD1 v] /\ writes_of evs = []) \/
  (v <> 0 /\ exists ss s,
     Forall fifo_full ss /\ (length ss < Z.to_nat 0xffff)%nat /\
     ~ fifo_full s /\
     evs = IoRead SCRATCHPAD1 v ::
           map (IoRead TILE_TO_HOST_STATUS) ss ++
           [IoRead TILE_TO_HOST_STATUS s;
            IoWrite TILE_TO_HOST_DATA (header_data tx_header);
            IoWrite TILE_TO_HOST_DATA (to_uint64 c)] /\
     writes_of evs = [(TILE_TO_HOST_DATA, header_data tx_header);
                      (TILE_TO_HOST_DATA, to_uint64 c)]) \/
  (v <> 0 /\ exists ss,
     Forall fifo_full ss /\ length ss = Z.to_nat 0xffff /\
     evs = IoRead SCRATCHPAD1 v :: map (IoRead TILE_TO_HOST_STATUS) ss /\
     writes_of evs = []).
Proof.
  intros evs v. subst evs. rewrite tmfifo_putc_unfold. cbn zeta. fold v.
  destruct (Z.eqb_spec v 0) as [Hv|Hv].
  - left. by rewrite Hv.
  - right.
    destruct (putc_loop_events dev c (Z.to_nat 0xffff)
                (hist ++ [IoRead SCRATCHPAD1 v]))
      as (ss & Hss & [(Hlt & s & Hs & ->) | (Hlen & ->)]).
    + left. split; [done|]. exists ss, s. repeat split; try done.
      change (writes_of ([IoRead SCRATCHPAD1 v] ++
                map (IoRead TILE_TO_HOST_STATUS) ss ++
                IoRead TILE_TO_HOST_STATUS s :: send_char c)
              = writes_of (send_char c)).
      by rewrite !writes_of_app, writes_of_polls.
    + right. split; [done|]. exists ss. repeat split; try done.
      change (writes_of ([IoRead SCRATCHPAD1 v] ++
                map (IoRead TILE_TO_HOST_STATUS) ss) = []).
      by rewrite !writes_of_app, writes_of_polls.
Qed.

Example putc_busy_twice :
  snd (tmfifo_putc busy_twice 65 []) =
    [IoRead SCRATCHPAD1 1;
     IoRead TILE_TO_HOST_STATUS 255; IoRead TILE_TO_HOST_STATUS 255;
     IoRead TILE_TO_HOST_STATUS 10;
     IoWrite TILE_TO_HOST_DATA 0x10003; IoWrite TILE_TO_HOST_DATA 65].
Proof. vm_compute. reflexivity. Qed.

(** No remote end: the character is dropped after one read. *)
Example putc_absent :
  snd (tmfifo_putc (fun _ _ => 0) 65 []) = [IoRead SCRATCHPAD1 0].
Proof. vm_compute. reflexivity. Qed.

End TmfifoProps.

(** * Properties of the converter model *)
Module Elf2EfiProps.
Import Elf2Efi.

(** ** The result monad *)

Lemma bind_ok {A B} (m : result A) (k : A -> result B) (b : B) :
  m ≫= k = Ok b -> exists a, m = Ok a /\ k a = Ok b.
Proof. destruct m as [a|e]; [|done]. intros Hk. by exists a. Qed.

Lemma bind_failed {A B} (m : result A) (k : A -> result B) (e : error) :
  m ≫= k = Failed e ->
  m = Failed e \/ exists a, m = Ok a /\ k a = Failed e.
Proof.
  destruct m as [a|e']; intros Hk; [right; by exists a | left].
  injection Hk as ->. reflexivity.
Qed.

Lemma require_ok b e u : require b e = Ok u -> b = true.
Proof. by destruct b. Qed.

Lemma from_option_ok {A} (o : option A) e a :
  from_option o e = Ok a -> o = Some a.
Proof. destruct o; [|done]. by intros [= ->]. Qed.

Lemma ret_ok {A} (a b : A) : mret a = Ok b -> a = b.
Proof. by intros [= ->]. Qed.

(** Invert a successful run of monadic code, step by step. *)
Ltac ok_inv H :=
  repeat match type of H with
  | mbind _ _ = Ok _ =>
      let a := fresh "a" in
      let Ha := fresh "Hstep" in
      apply bind_ok in H as (a & Ha & H)
  | mret _ = Ok _ => apply ret_ok in H
  | (let '(_, _) := ?p in _) = Ok _ => destruct p
  end.

Lemma traverse_ok {A B} (f : A -> result B) (l : list A) (bs : list B) :
  traverse f l = Ok bs -> Forall2 (fun a b => f a = Ok b) l bs.
Proof.
  revert bs. induction l as [|a l IH]; intros bs H; simpl in H.
  - injection H as <-. constructor.
  - ok_inv H. subst bs. constructor; [done | by apply IH].
Qed.

Lemma traverse_all_ok {A B} (f : A -> result B) (l : list A) :
  Forall (fun a => exists b, f a = Ok b) l -> exists bs, traverse f l = Ok bs.
Proof.
  induction 1 as [|a l [b Hb] _ [bs IH]]; simpl.
  - by exists [].
  - rewrite Hb, IH. by eexists.
Qed.

(** A traversal fails with the failure of one of the elements. *)
Lemma traverse_failed {A B} (f : A -> result B) (l : list A) e :
  traverse f l = Failed e -> exists a, a ∈ l /\ f a = Failed e.
Proof.
  induction l as [|a l IH]; simpl; [done|].
  intros H. apply bind_failed in H as [H | (b & Hb & H)].
  - exists a. split; [left | done].
  - apply bind_failed in H as [H | (bs & Hbs & H)]; [|done].
    destruct (IH H) as (a' & Hin & Ha'). exists a'. split; [by right | done].
Qed.

(** ** Alignment *)

Lemma align_up_ge x a : 0 < a -> x <= align_up x a.
Proof.
  intros Ha. unfold align_up. destruct (Z.leb_spec a 1); [lia|].
  pose proof (Z.div_mod (x + a - 1) a ltac:(lia)).
  pose proof (Z.mod_pos_bound (x + a - 1) a ltac:(lia)). lia.
Qed.

Lemma align_up_mod x a : 0 < a -> align_up x a mod a = 0.
Proof.
  intros Ha. unfold align_up. destruct (Z.leb_spec a 1).
  - assert (a = 1) as -> by lia. apply Z.mod_1_r.
  - apply Z.mod_mul. lia.
Qed.

Lemma add_aligned x y a : 0 < a -> x mod a = 0 -> y mod a = 0 -> (x + y) mod a = 0.
Proof.
  intros Ha Hx Hy. rewrite Z.add_mod, Hx, Hy by lia. by apply Z.mod_0_l; lia.
Qed.

(** ** Section Layout Planner *)

Lemma align_up_le x a : x <= align_up x a.
Proof.
  unfold align_up. destruct (Z.leb_spec a 1) as [|Ha]; [lia|].
  pose proof (Z.div_mod (x + a - 1) a ltac:(lia)).
  pose proof (Z.mod_pos_bound (x + a - 1) a ltac:(lia)). lia.
Qed.

Lemma align_up_0 a : align_up 0 a = 0.
Proof.
  unfold align_up. destruct (Z.leb_spec a 1) as [|Ha]; [done|].
  rewrite Z.div_small by lia. done.
Qed.

(** The size of a bucket is positive exactly when one of its sections
    holds a byte: padding alone takes no room. *)
Lemma place_members_total img b secs :
  Forall (fun p => 0 <= sec_size (snd p)) secs ->
  forall cursor prev_align, 0 <= cursor ->
  (0 <? snd (place_members img b secs cursor prev_align)) =
    (0 <? cursor) ||
    existsb (fun p => in_bucket img b p && (0 <? sec_size (snd p))) secs.
Proof.
  induction 1 as [|[i s] secs Hs _ IH]; intros cursor prev_align Hc.
  - cbn. by rewrite orb_false_r.
  - cbn [place_members existsb]. unfold in_bucket at 1. cbn [fst snd] in *.
    destruct (kept img i s && bool_decide (bucket_of s = b)); cbn [andb orb].
    2:{ by apply IH. }
    set (off := align_up cursor (Z.max prev_align (sec_align s))).
    assert (Hoff : cursor <= off) by apply align_up_le.
    assert (Hoff0 : cursor = 0 -> off = 0)
      by (intros ->; apply align_up_0).
    specialize (IH (off + sec_size s) (sec_align s) ltac:(lia)).
    destruct (place_members img b secs (off + sec_size s) (sec_align s))
      as [members total].
    cbn [snd] in *. rewrite IH, orb_assoc. f_equal.
    destruct (Z.ltb_spec 0 cursor), (Z.ltb_spec 0 (sec_size s)),
      (Z.ltb_spec 0 (off + sec_size s)); cbn; try done; lia.
Qed.

Lemma imap_pair_sizes img :
  sizes_unsigned img ->
  Forall (fun p : nat * Section => 0 <= sec_size (snd p))
    (imap pair (elf_sections img)).
Proof.
  unfold sizes_unsigned. intros Hall. apply Forall_lookup_2. intros i [k s] Hi.
  rewrite list_lookup_imap in Hi.
  destruct (elf_sections img !! i) as [s'|] eqn:Hs; [|done].
  injection Hi as <- <-. cbn.
  by apply (Forall_lookup_1 _ _ _ _ Hall Hs).
Qed.

Lemma bucket_layout_nonempty img b :
  sizes_unsigned img ->
  (0 <? snd (bucket_layout img b)) = nonempty_bucket img b.
Proof.
  intros Hwf. unfold bucket_layout, nonempty_bucket.
  by rewrite (place_members_total img b _ (imap_pair_sizes img Hwf) 0 0).
Qed.

Lemma plan_buckets_spec cfg img bs :
  0 < cfg_section_alignment cfg -> 0 < cfg_file_alignment cfg ->
  sizes_unsigned img ->
  forall rva fptr,
  rva mod cfg_section_alignment cfg = 0 ->
  fptr mod cfg_file_alignment cfg = 0 ->
  let secs := fst (plan_buckets cfg img bs rva fptr) in
  let stop := snd (plan_buckets cfg img bs rva fptr) in
  Forall (fun s => rva <= ps_rva s /\
                   ps_rva s mod cfg_section_alignment cfg = 0 /\
                   ps_file_ptr s mod cfg_file_alignment cfg = 0) secs /\
  StronglySorted precedes secs /\
  stop - rva = aligned_sizes (cfg_section_alignment cfg) secs /\
  length secs = length (filter (fun b => nonempty_bucket img b = true) bs).
Proof.
  intros Hsa Hfa Hwf. induction bs as [|b bs IH]; intros rva fptr Hrva Hfptr.
  - simpl. repeat split; try constructor. lia.
  - cbn [plan_buckets]. rewrite filter_cons.
    pose proof (bucket_layout_nonempty img b Hwf) as Hne.
    destruct (bucket_layout img b) as [members total]. cbn [snd] in Hne.
    destruct (Z.ltb_spec 0 total) as [Hpos|Hzero].
    2:{ rewrite decide_False by (by rewrite <- Hne). by apply IH. }
    rewrite decide_True by done.
    set (raw := match b with
                | UninitializedData => 0
                | _ => align_up total (cfg_file_alignment cfg)
                end).
    set (rva' := rva + align_up total (cfg_section_alignment cfg)).
    assert (Hraw : raw mod cfg_file_alignment cfg = 0).
    { unfold raw. destruct b; try by apply align_up_mod.
      apply Z.mod_0_l. lia. }
    assert (Hrva' : rva' mod cfg_section_alignment cfg = 0).
    { apply add_aligned; [done..|]. by apply align_up_mod. }
    assert (Hge : rva + total <= rva').
    { pose proof (align_up_ge total _ Hsa). unfold rva'. lia. }
    specialize (IH rva' (fptr + raw) Hrva' (add_aligned _ _ _ Hfa Hfptr Hraw)).
    destruct (plan_buckets cfg img bs rva' (fptr + raw)) as [secs stop].
    cbn [fst snd] in *. destruct IH as (Hall & Hsorted & Hsum & Hlen).
    repeat split.
    + constructor; [cbn; repeat split; [lia | done..]|].
      eapply Forall_impl; [exact Hall|]. cbn. intros s (? & ? & ?).
      repeat split; [lia | done..].
    + constructor; [done|].
      eapply Forall_impl; [exact Hall|]. cbn. intros s (? & _).
      unfold precedes. cbn. lia.
    + unfold aligned_sizes in *. cbn [foldr ps_virtual_size].
      unfold rva' in Hsum. lia.
    + cbn [length]. by rewrite Hlen.
Qed.

(** C5: in every layout the planner produces (for positive alignments
    and a section table whose sizes are unsigned), the sections are in
    strictly increasing address order and do not overlap; every section
    RVA is a multiple of the section alignment and every file pointer a
    multiple of the file alignment; the section sizes rounded up to the
    section alignment add up to the declared image size; and there is one
    section per non-empty bucket -- a bucket to which the input sends a
    section that holds at least one byte -- so four at most. *)
Theorem layout_invariants (cfg : Config) (img : ElfImage) :
  0 < cfg_section_alignment cfg -> 0 < cfg_file_alignment cfg ->
  sizes_unsigned img ->
  let layout := plan_layout cfg img in
  StronglySorted precedes (pl_sections layout) /\
  Forall (fun s => ps_rva s mod pl_section_alignment layout = 0 /\
                   ps_file_ptr s mod pl_file_alignment layout = 0)
         (pl_sections layout) /\
  aligned_sizes (pl_section_alignment layout) (pl_sections layout) =
    pl_image_size layout /\
  length (pl_sections layout) =
    length (filter (fun b => nonempty_bucket img b = true) all_buckets) /\
  (length (pl_sections layout) <= 4)%nat.
Proof.
  intros Hsa Hfa Hwf layout. subst layout. unfold plan_layout.
  pose proof (plan_buckets_spec cfg img all_buckets Hsa Hfa Hwf
                _ _ (align_up_mod (cfg_size_of_headers cfg) _ Hsa)
                (align_up_mod (cfg_size_of_headers cfg) _ Hfa))
    as (Hall & Hsorted & Hsum & Hlen).
  destruct (plan_buckets cfg img all_buckets _ _) as [secs stop].
  cbn [fst snd pl_sections pl_section_alignment pl_file_alignment
       pl_image_size] in *.
  repeat split; try done.
  - eapply Forall_impl; [exact Hall|]. cbn. tauto.
  - rewrite Hlen. apply (length_filter _ all_buckets).
Qed.

(** ** Relocation blocks *)

Lemma page_offset rva : page_of rva + offset_in_page rva = rva.
Proof. unfold page_of, offset_in_page. lia. Qed.

Lemma page_of_aligned rva : page_of rva mod PAGE_SIZE = 0.
Proof.
  unfold page_of, PAGE_SIZE.
  rewrite Zminus_mod_idemp_r, Z.sub_diag. reflexivity.
Qed.

Lemma offset_in_page_range rva : 0 <= offset_in_page rva < PAGE_SIZE.
Proof. apply Z.mod_pos_bound. unfold PAGE_SIZE. lia. Qed.

Lemma page_of_split page off :
  page mod PAGE_SIZE = 0 -> 0 <= off < PAGE_SIZE ->
  page_of (page + off) = page /\ offset_in_page (page + off) = off.
Proof.
  unfold page_of, offset_in_page, PAGE_SIZE. intros Hp Hoff.
  assert ((page + off) mod 4096 = off).
  { apply Z.mod_divide in Hp as [q ->]; [|lia].
    rewrite Z.add_comm, Z.mod_add by lia. apply Z.mod_small. lia. }
  lia.
Qed.

Lemma group_by_page_cons rva k rest :
  group_by_page ((rva, k) :: rest) =
    match group_by_page rest with
    | b :: bs =>
        if rb_page b =? page_of rva
        then {| rb_page := rb_page b;
                rb_entries := (offset_in_page rva, k) :: rb_entries b |} :: bs
        else {| rb_page := page_of rva;
                rb_entries := [(offset_in_page rva, k)] |} :: b :: bs
    | [] => [{| rb_page := page_of rva;
                rb_entries := [(offset_in_page rva, k)] |}]
    end.
Proof. reflexivity. Qed.

(** Grouping loses nothing: the blocks hold the entries given, in order. *)
Lemma group_by_page_entries es :
  flat_map entries_of_block (group_by_page es) = es.
Proof.
  induction es as [|[rva k] rest IH]; [done|].
  rewrite group_by_page_cons.
  destruct (group_by_page rest) as [|b bs].
  - simpl in IH. subst rest. unfold entries_of_block. cbn.
    by rewrite page_offset.
  - destruct (Z.eqb_spec (rb_page b) (page_of rva)) as [Hp|Hp].
    + rewrite <- IH. unfold entries_of_block. cbn.
      by rewrite Hp, page_offset.
    + rewrite <- IH. unfold entries_of_block at 1. cbn.
      by rewrite page_offset.
Qed.

Lemma group_by_page_ok es : Forall block_ok (group_by_page es).
Proof.
  induction es as [|[rva k] rest IH]; [constructor|].
  rewrite group_by_page_cons.
  destruct (group_by_page rest) as [|b bs].
  - repeat constructor; cbn; try apply page_of_aligned; try done;
      apply offset_in_page_range.
  - apply Forall_cons in IH as [(Hp & Hne & Hr) Hbs].
    destruct (Z.eqb_spec (rb_page b) (page_of rva)).
    + constructor; [|done]. repeat split; cbn; try done.
      constructor; [apply offset_in_page_range | done].
    + constructor; [|by constructor]. repeat split; cbn; try done.
      * apply page_of_aligned.
      * repeat constructor; apply offset_in_page_range.
Qed.

(** The entries of a block come out in ascending offset order when the
    entries given are in ascending address order. *)
Lemma group_by_page_sorted es :
  StronglySorted by_rva es ->
  Forall (fun b => StronglySorted by_offset (rb_entries b)) (group_by_page es).
Proof.
  induction 1 as [|[rva k] rest Hsorted IH Hle]; [constructor|].
  rewrite group_by_page_cons.
  pose proof (group_by_page_entries rest) as Hent.
  destruct (group_by_page rest) as [|b bs].
  - repeat constructor.
  - apply Forall_cons in IH as [Hb Hbs].
    destruct (Z.eqb_spec (rb_page b) (page_of rva)) as [Hp|Hp].
    + constructor; [|done]. cbn. constructor; [done|].
      apply Forall_forall. intros [off' k'] Hin.
      assert (Hin' : (rb_page b + off', k') ∈ rest).
      { rewrite <- Hent. cbn. apply elem_of_app. left.
        unfold entries_of_block. apply list_elem_of_fmap.
        by exists (off', k'). }
      rewrite Forall_forall in Hle. specialize (Hle _ Hin').
      unfold by_rva, by_offset in *. cbn in *.
      pose proof (page_offset rva). lia.
    + constructor; [|by constructor]. cbn. repeat constructor.
Qed.

Lemma flat_map_entries_length blocks :
  length (flat_map entries_of_block blocks) =
  length (concat (map rb_entries blocks)).
Proof.
  induction blocks as [|b bs IH]; [done|].
  cbn. rewrite !length_app, IH. unfold entries_of_block.
  by rewrite length_map.
Qed.

(** An entry is in a block at a given page and offset exactly when the
    entry of that address is among the entries of the blocks. *)
Lemma block_entry_iff blocks rva k :
  Forall block_ok blocks ->
  (exists b, b ∈ blocks /\ rb_page b = page_of rva /\
             (offset_in_page rva, k) ∈ rb_entries b) <->
  (rva, k) ∈ flat_map entries_of_block blocks.
Proof.
  intros Hok. rewrite list_elem_of_In, in_flat_map. split.
  - intros (b & Hb & Hp & Hin). exists b.
    split; [by apply list_elem_of_In|]. apply list_elem_of_In.
    unfold entries_of_block. apply list_elem_of_fmap.
    exists (offset_in_page rva, k). split; [|done].
    cbn. by rewrite Hp, page_offset.
  - intros (b & Hb & Hin). apply list_elem_of_In in Hb, Hin.
    exists b. split; [done|].
    unfold entries_of_block in Hin.
    apply list_elem_of_fmap in Hin as ([off k'] & [= -> ->] & Hin).
    rewrite Forall_forall in Hok. destruct (Hok _ Hb) as (Hp & _ & Hr).
    rewrite Forall_forall in Hr. specialize (Hr _ Hin). cbn in Hr.
    destruct (page_of_split _ _ Hp Hr) as [-> ->]. by split.
Qed.

(** ** Relocation Translator *)

Lemma classify_ok tbl sr x :
  classify tbl sr = Ok x ->
  exists spec, tbl (r_type (snd sr)) = Some spec /\ x = (fst sr, snd sr, spec).
Proof.
  destruct sr as [i r]. unfold classify. intros H. ok_inv H.
  apply from_option_ok in Hstep. subst x. by exists a.
Qed.

Lemma classify_failed tbl sr e :
  classify tbl sr = Failed e ->
  tbl (r_type (snd sr)) = None /\
  e = UnsupportedRelocation (r_type (snd sr)) (fst sr) (r_offset (snd sr)).
Proof.
  destruct sr as [i r]. unfold classify. cbn.
  destruct (tbl (r_type r)); cbn; [done|]. by intros [= <-].
Qed.

Lemma resolve_fixup_ok layout img i r spec f :
  resolve_fixup layout img (i, r, spec) = Ok f ->
  fu_spec f = spec /\ address_map layout i (r_offset r) = Some (fu_rva f) /\
  fu_section f = i /\ fu_offset f = r_offset r.
Proof.
  unfold resolve_fixup. intros H. ok_inv H.
  apply from_option_ok in Hstep1. subst f. by cbn.
Qed.

(** Whatever goes wrong when a record is resolved is a malformed input. *)
Lemma resolve_fixup_failed layout img x e :
  resolve_fixup layout img x = Failed e -> e = FormatError.
Proof.
  destruct x as [[i r] spec]. unfold resolve_fixup. intros H.
  repeat match type of H with
  | mbind _ _ = Failed _ =>
      apply bind_failed in H as [H | (? & _ & H)]
  | from_option ?o _ = Failed _ => destruct o; cbn in H
  | require ?b _ = Failed _ => destruct b; cbn in H
  end; first [congruence | discriminate H].
Qed.

Lemma resolved_relocs tbl layout img relocs classified fixups :
  traverse (classify tbl) relocs = Ok classified ->
  traverse (resolve_fixup layout img) classified = Ok fixups ->
  Forall2 (resolved tbl layout) relocs fixups.
Proof.
  intros Hc Hr. apply traverse_ok in Hc, Hr.
  revert fixups Hr. induction Hc as [|sr x relocs classified Hx _ IH];
    intros fixups Hr.
  - apply Forall2_nil_inv_l in Hr as ->. constructor.
  - apply Forall2_cons_inv_l in Hr as (f & fixups' & Hf & Hr & ->).
    constructor; [|by apply IH].
    apply classify_ok in Hx as (spec & Hspec & ->).
    apply resolve_fixup_ok in Hf as (<- & Hrva & Hsec & Hoff).
    by repeat split.
Qed.

Section Translator.

Variable reloc_tables : Z -> option RelocTable.

Lemma translate_ok layout img work blocks :
  translate reloc_tables layout img = Ok (work, blocks) ->
  exists tbl fixups,
    reloc_tables (elf_machine img) = Some tbl /\
    Forall2 (resolved tbl layout) (elf_relocs img) fixups /\
    overlap_free fixups = true /\
    work = fold_values (map sec_data (elf_sections img)) fixups /\
    blocks = build_blocks fixups.
Proof.
  unfold translate. intros H. ok_inv H.
  apply from_option_ok in Hstep. apply require_ok in Hstep2.
  injection H as <- <-.
  exists a, a1. repeat split; try done. by eapply resolved_relocs.
Qed.

End Translator.

(** *** Overlapping targets *)

Lemma fu_width_pos f : 0 < fu_width f.
Proof. unfold fu_width. by destruct (fx_width (fu_spec f)). Qed.

Lemma ranges_overlap_sym f g : ranges_overlap f g = ranges_overlap g f.
Proof. unfold ranges_overlap. apply andb_comm. Qed.

Lemma overlap_free_lookup fs p q f g :
  overlap_free fs = true -> (p < q)%nat ->
  fs !! p = Some f -> fs !! q = Some g -> ranges_overlap f g = false.
Proof.
  revert p q. induction fs as [|f0 fs IH]; intros p q Hfree Hpq Hp Hq;
    [done|].
  cbn in Hfree. apply andb_true_iff in Hfree as [Hall Hfree].
  destruct q as [|q]; [lia|]. cbn in Hq. destruct p as [|p].
  - cbn in Hp. injection Hp as ->.
    rewrite forallb_forall in Hall.
    apply negb_true_iff, Hall, list_elem_of_In, list_elem_of_lookup.
    by exists q.
  - cbn in Hp. apply (IH p q); [done | lia | done..].
Qed.

(** Two different fixups of an overlap-free list are at different
    places. *)
Lemma overlap_free_distinct fs f g :
  overlap_free fs = true -> f ∈ fs -> g ∈ fs -> fu_rva f = fu_rva g -> f = g.
Proof.
  intros Hfree Hf Hg Hrva.
  apply list_elem_of_lookup in Hf as [p Hp].
  apply list_elem_of_lookup in Hg as [q Hq].
  assert (Hov : ranges_overlap f g = true).
  { unfold ranges_overlap. pose proof (fu_width_pos f).
    pose proof (fu_width_pos g).
    apply andb_true_iff. split; apply Z.ltb_lt; lia. }
  destruct (Nat.lt_total p q) as [Hlt | [-> | Hlt]].
  - pose proof (overlap_free_lookup _ _ _ _ _ Hfree Hlt Hp Hq). congruence.
  - congruence.
  - pose proof (overlap_free_lookup _ _ _ _ _ Hfree Hlt Hq Hp) as Hno.
    rewrite ranges_overlap_sym in Hno. congruence.
Qed.

(** *** Which records get a runtime entry *)

Lemma runtime_kind_absolute spec :
  is_Some (runtime_kind spec) <-> fx_addressing spec = Absolute.
Proof.
  unfold runtime_kind. destruct (fx_addressing spec); split;
    try done; by intros [? ?].
Qed.

Lemma runtime_entries_length tbl layout relocs fixups :
  Forall2 (resolved tbl layout) relocs fixups ->
  length (runtime_entries fixups) =
  length (filter (fun sr => is_absolute tbl sr = true) relocs).
Proof.
  induction 1 as [|sr f relocs fixups (Hspec & _) _ IH]; [done|].
  assert (Habs : is_absolute tbl sr = true <->
                 fx_addressing (fu_spec f) = Absolute).
  { unfold is_absolute. rewrite Hspec.
    by destruct (fx_addressing (fu_spec f)). }
  rewrite filter_cons. unfold runtime_entries in *. cbn [omap list_omap].
  unfold runtime_kind at 1.
  destruct (fx_addressing (fu_spec f));
    [rewrite decide_True by (by apply Habs)
    |rewrite decide_False by (by rewrite Habs)..];
    cbn; by rewrite IH.
Qed.

Lemma runtime_entries_elem fs rva k :
  (rva, k) ∈ runtime_entries fs <->
  exists f, f ∈ fs /\ fu_rva f = rva /\ runtime_kind (fu_spec f) = Some k.
Proof.
  unfold runtime_entries. rewrite list_elem_of_omap. split.
  - intros (f & Hf & Hk). exists f. split; [done|].
    destruct (runtime_kind (fu_spec f)) as [k'|]; cbn in Hk; [|done].
    by injection Hk as <- <-.
  - intros (f & Hf & <- & Hk). exists f. split; [done|]. by rewrite Hk.
Qed.

#[local] Instance by_rva_total : Total by_rva.
Proof. intros a b. unfold by_rva. lia. Qed.

#[local] Instance by_rva_trans : Transitive by_rva.
Proof. intros a b c. unfold by_rva. lia. Qed.

Lemma build_blocks_entries fs :
  flat_map entries_of_block (build_blocks fs) ≡ₚ runtime_entries fs.
Proof.
  unfold build_blocks. rewrite group_by_page_entries.
  apply merge_sort_Permutation.
Qed.

(** C1: when the translator succeeds, a record has a runtime entry (in
    the block of the page of its target, at the offset of its target)
    exactly when the table gives its type an absolute addressing;
    PC-relative and statically resolved records have none.  The entries
    of all the blocks are as many as the records of absolute kind. *)
Theorem runtime_entry_iff_absolute
    (reloc_tables : Z -> option RelocTable) (layout : PeLayout)
    (img : ElfImage) (work : list (list byte))
    (blocks : list RelocationBlock) :
  translate reloc_tables layout img = Ok (work, blocks) ->
  exists tbl,
    reloc_tables (elf_machine img) = Some tbl /\
    length (concat (map rb_entries blocks)) =
      length (filter (fun sr => is_absolute tbl sr = true) (elf_relocs img)) /\
    forall i r, (i, r) ∈ elf_relocs img ->
      exists spec rva,
        tbl (r_type r) = Some spec /\
        address_map layout i (r_offset r) = Some rva /\
        ((exists b k, b ∈ blocks /\ rb_page b = page_of rva /\
                      (offset_in_page rva, k) ∈ rb_entries b) <->
         fx_addressing spec = Absolute).
Proof.
  intros H.
  apply translate_ok in H as (tbl & fixups & Htbl & Hres & Hfree & _ & ->).
  exists tbl. split; [done|]. split.
  - rewrite <- flat_map_entries_length, build_blocks_entries.
    by eapply runtime_entries_length.
  - intros i r Hin.
    apply list_elem_of_lookup in Hin as [p Hp].
    destruct (Forall2_lookup_l _ _ _ _ _ Hres Hp)
      as (f & Hf & Hspec & Hrva & _).
    cbn in Hspec, Hrva.
    exists (fu_spec f), (fu_rva f). split; [done|]. split; [done|].
    assert (Hblocks : forall k,
      (exists b, b ∈ build_blocks fixups /\ rb_page b = page_of (fu_rva f) /\
                 (offset_in_page (fu_rva f), k) ∈ rb_entries b) <->
      (fu_rva f, k) ∈ runtime_entries fixups).
    { intros k. rewrite block_entry_iff by apply group_by_page_ok.
      by rewrite build_blocks_entries. }
    rewrite <- runtime_kind_absolute. split.
    + intros (b & k & Hb). 
      assert (Hk : (fu_rva f, k) ∈ runtime_entries fixups)
        by (apply Hblocks; by exists b).
      apply runtime_entries_elem in Hk as (g & Hg & Hgrva & Hgk).
      assert (g = f) as ->.
      { apply (overlap_free_distinct fixups); try done.
        by apply list_elem_of_lookup; exists p. }
      by exists k.
    + intros [k Hk].
      assert (Hin : (fu_rva f, k) ∈ runtime_entries fixups).
      { apply runtime_entries_elem. exists f. split; [|done].
        apply list_elem_of_lookup. by exists p. }
      apply Hblocks in Hin as (b & Hb). by exists b, k.
Qed.

Lemma runtime_entry_iff_absolute_witness :
  let layout := plan_layout default_config Scenario.one_absolute in
  exists work blocks,
    translate Scenario.sample_tables layout Scenario.one_absolute =
      Ok (work, blocks) /\
    length (concat (map rb_entries blocks)) = 1%nat.
Proof.
  intros layout.
  destruct (translate Scenario.sample_tables layout Scenario.one_absolute)
    as [[work blocks]|e] eqn:H; [|vm_compute in H; discriminate H].
  exists work, blocks. split; [reflexivity|].
  destruct (runtime_entry_iff_absolute _ _ _ _ _ H) as (tbl & Htbl & -> & _).
  injection Htbl as <-. reflexivity.
Defined.

(** ** PE/COFF Emitter: the checksum *)















Lemma layout_invariants_witness :
  let layout := plan_layout default_config Scenario.one_absolute in
  StronglySorted precedes (pl_sections layout) /\
  Forall (fun s => ps_rva s mod pl_section_alignment layout = 0 /\
                   ps_file_ptr s mod pl_file_alignment layout = 0)
         (pl_sections layout) /\
  aligned_sizes (pl_section_alignment layout) (pl_sections layout) =
    pl_image_size layout /\
  length (pl_sections layout) =
    length (filter (fun b => nonempty_bucket Scenario.one_absolute b = true)
              all_buckets) /\
  (length (pl_sections layout) <= 4)%nat.
Proof.
  apply (layout_invariants default_config Scenario.one_absolute).
  - cbn. lia.
  - cbn. lia.
  - unfold sizes_unsigned. cbn. repeat (constructor; [cbn; lia|]).
    constructor.
Defined.


End Elf2EfiProps.

(** * More properties of the logging hub *)
Module LogRest.
Import Buf Log LogProps.

(** ** The console table *)

Lemma reachable_table st :
  reachable st ->
  exists msg c0 c1,
    st = {| message := msg; consoles := [c0; c1] |} /\
    (notify c0 = notify c1 -> notify c0 = NULL).
Proof.
  intros Hr. destruct (reachable_inv _ Hr) as [(c0 & c1 & Hcs & Hne) _].
  destruct st as [msg cs]. cbn in Hcs. subst cs. by exists msg, c0, c1.
Qed.

Ltac two_slots Hr :=
  let msg := fresh "msg" in
  let c0 := fresh "c0" in
  let c1 := fresh "c1" in
  let Hne := fresh "Hne" in
  destruct (reachable_table _ Hr) as (msg & c0 & c1 & -> & Hne).

Ltac slot_cases i H :=
  destruct i as [|[|i]]; cbn in H; [injection H as <- | injection H as <- | done].

(** X1: [log_unsubscribe] of a callback that is in no slot changes
    nothing. *)
Theorem unsubscribe_absent_is_noop (st : state) (cb : log_callback_t) :
  reachable st -> slots_of cb (consoles st) = 0%nat ->
  log_unsubscribe cb st = st.
Proof.
  intros Hr Hnone. two_slots Hr. cbn [consoles] in Hnone.
  rewrite log_unsubscribe_two. rewrite slots_of_two in Hnone.
  repeat case_decide; try lia.
  destruct (Z.eqb_spec (notify c0) cb); [done|].
  by destruct (Z.eqb_spec (notify c1) cb).
Qed.

Lemma unsubscribe_absent_is_noop_witness :
  let st := snd (log_subscribe 100%Z 3 initial_state) in
  log_unsubscribe 200%Z st = st.
Proof.
  intros st.
  apply (unsubscribe_absent_is_noop st 200%Z).
  - apply reach_subscribe, reach_init.
  - reflexivity.
Defined.

(** X2: [log_unsubscribe] of a callback leaves every slot that holds
    another callback as it is, routine and level. *)
Theorem unsubscribe_keeps_others
    (st : state) (cb : log_callback_t) (i : nat) (c : console_t) :
  reachable st -> consoles st !! i = Some c -> notify c <> cb ->
  consoles (log_unsubscribe cb st) !! i = Some c.
Proof.
  intros Hr Hc Hother. two_slots Hr. cbn [consoles] in Hc.
  rewrite log_unsubscribe_two. cbn [consoles].
  slot_cases i Hc; table_cases; try done.
Qed.

Lemma unsubscribe_keeps_others_witness :
  let st := snd (log_subscribe 200%Z 5 (snd (log_subscribe 100%Z 3 initial_state))) in
  consoles (log_unsubscribe 100%Z st) !! 1%nat =
    Some {| notify := 200; maxlevel := 5 |}.
Proof.
  intros st.
  apply (unsubscribe_keeps_others st 100%Z 1%nat).
  - apply reach_subscribe, reach_subscribe, reach_init.
  - reflexivity.
  - cbn. unfold NULL. lia.
Defined.

(** X3: [log_subscribe] of a callback leaves every slot that holds another
    callback as it is, routine and level, whether it succeeds or not; and
    when it fails with ERR_OUT_OF_RESOURCES the whole state is as it
    was. *)
Theorem subscribe_keeps_others
    (st : state) (cb : log_callback_t) (lvl : Z) (i : nat) (c : console_t) :
  reachable st -> consoles st !! i = Some c ->
  notify c <> cb -> notify c <> NULL ->
  consoles (snd (log_subscribe cb lvl st)) !! i = Some c /\
  (fst (log_subscribe cb lvl st) = ERR_OUT_OF_RESOURCES ->
   snd (log_subscribe cb lvl st) = st).
Proof.
  intros Hr Hc Hother Hused. two_slots Hr. cbn [consoles] in Hc.
  rewrite log_subscribe_two. cbn zeta.
  slot_cases i Hc; table_cases; cbn [fst snd consoles]; split; try done.
Qed.

Lemma subscribe_keeps_others_witness :
  let st := snd (log_subscribe 100%Z 3 initial_state) in
  consoles (snd (log_subscribe 200%Z 9 st)) !! 0%nat =
    Some {| notify := 100; maxlevel := 3 |}.
Proof.
  intros st.
  refine (proj1 (subscribe_keeps_others st 200%Z 9 0%nat _ _ _ _ _)).
  - apply reach_subscribe, reach_init.
  - reflexivity.
  - cbn. lia.
  - cbn. unfold NULL. lia.
Defined.

Lemma log_subscribe_twice_two cb lvl1 lvl2 msg c0 c1 :
  (notify c0 = notify c1 -> notify c0 = NULL) ->
  let st := {| message := msg; consoles := [c0; c1] |} in
  log_subscribe cb lvl2 (snd (log_subscribe cb lvl1 st)) =
    log_subscribe cb lvl2 st.
Proof.
  intros Hne. cbn zeta.
  rewrite (log_subscribe_two cb lvl1). cbn zeta.
  destruct c0 as [n0 m0], c1 as [n1 m1]. cbn [notify] in *.
  destruct (Z.eqb_spec n0 cb), (Z.eqb_spec n1 cb), (Z.eqb_spec n0 NULL),
    (Z.eqb_spec n1 NULL); cbn [snd];
    rewrite !log_subscribe_two; cbn [notify free_console]; cbn zeta;
    table_cases; try reflexivity; try congruence;
    unfold NULL in *; subst; try congruence; try lia;
    try (exfalso; lia).
Qed.

(** X4: the last subscription wins: subscribing a callback at one level
    and then at another leaves the hub exactly as subscribing it at the
    second level alone, with the same status.  In particular subscribing
    twice at the same level is the same as subscribing once. *)
Theorem resubscribe_last_wins
    (st : state) (cb : log_callback_t) (lvl1 lvl2 : Z) :
  reachable st ->
  log_subscribe cb lvl2 (snd (log_subscribe cb lvl1 st)) =
    log_subscribe cb lvl2 st.
Proof.
  intros Hr. two_slots Hr.
  by apply log_subscribe_twice_two.
Qed.

Lemma resubscribe_last_wins_witness :
  let st := snd (log_subscribe 100%Z 3 initial_state) in
  log_subscribe 200%Z 5 (snd (log_subscribe 200%Z 2 st)) =
    log_subscribe 200%Z 5 st.
Proof.
  intros st. apply (resubscribe_last_wins st 200%Z 2 5).
  apply reach_subscribe, reach_init.
Defined.

(** ** What the hub keeps *)

Lemma clamp_level_range level :
  LOG_EMERG <= clamp_level level <= LOG_DEBUG.
Proof.
  unfold clamp_level, IS_SYSLOG_LEVEL, LOG_EMERG, LOG_DEBUG.
  destruct (Z.leb_spec 0 level), (Z.leb_spec level 7); cbn; lia.
Qed.

Lemma Log_unfold level body st :
  Log level body st =
    let r := syslog_vformat (message st) LOG_MAX_LEN (clamp_level level)
               None body in
    ({| message := fst r; consoles := consoles st |},
     if snd r + 1 <=? 1 then []
     else notify_loop (clamp_level level) (fst r) (consoles st)
            0 CONSOLES_MAX_NR).
Proof.
  unfold Log. fold (clamp_level level).
  destruct (syslog_vformat _ _ _ _ _) as [buf len]. cbn.
  by destruct (len + 1 <=? 1).
Qed.

(** X5: in every state of the hub the console table has its two slots,
    the message buffer its 1024 bytes, and every slot holds a level of the
    syslog range 0..7, whatever levels were given to [log_subscribe]. *)
Theorem hub_invariants (st : state) :
  reachable st ->
  length (consoles st) = CONSOLES_MAX_NR /\
  Z.of_nat (length (message st)) = LOG_MAX_LEN /\
  levels_in_range (consoles st).
Proof.
  intros Hr.
  destruct (reachable_inv _ Hr) as [(d0 & d1 & Hcs & _) Hmsg].
  split; [by rewrite Hcs|]. split; [rewrite Hmsg; unfold LOG_MAX_LEN; lia|].
  clear d0 d1 Hcs Hmsg. unfold levels_in_range.
  induction Hr as [|cb lvl st Hr IH|cb st Hr IH|lvl body st Hr IH].
  - repeat constructor; cbn; unfold LOG_EMERG, LOG_DEBUG; lia.
  - two_slots Hr. cbn [consoles] in IH.
    apply Forall_cons in IH as [H0 IH]. apply Forall_cons in IH as [H1 _].
    pose proof (clamp_level_range lvl).
    rewrite log_subscribe_two. cbn zeta.
    table_cases; cbn [snd consoles]; repeat constructor; cbn;
      unfold LOG_EMERG, LOG_DEBUG in *; lia.
  - two_slots Hr. cbn [consoles] in IH.
    apply Forall_cons in IH as [H0 IH]. apply Forall_cons in IH as [H1 _].
    rewrite log_unsubscribe_two. cbn [consoles].
    table_cases; repeat constructor; cbn;
      unfold LOG_EMERG, LOG_DEBUG in *; lia.
  - by rewrite Log_unfold.
Qed.

Lemma hub_invariants_witness :
  levels_in_range (consoles (snd (log_subscribe 100%Z 42 initial_state))).
Proof.
  apply hub_invariants, reach_subscribe, reach_init.
Defined.

(** ** Subscriptions and Log *)

Lemma Log_calls_two level body msg c0 c1 :
  let st := {| message := msg; consoles := [c0; c1] |} in
  let r := syslog_vformat msg LOG_MAX_LEN (clamp_level level) None body in
  snd (Log level body st) =
    if snd r + 1 <=? 1 then []
    else (if notified (clamp_level level) c0 then [(notify c0, fst r)] else [])
         ++ (if notified (clamp_level level) c1 then [(notify c1, fst r)]
             else []).
Proof.
  cbn zeta. rewrite Log_unfold. cbn [snd message consoles].
  destruct (_ <=? 1); [done|]. apply notify_loop_two.
Qed.

Ltac count_calls :=
  rewrite ?calls_of_app; unfold notified;
  repeat match goal with
  | |- context [Z.eqb ?a ?b] => destruct (Z.eqb_spec a b)
  | |- context [Z.leb ?a ?b] => destruct (Z.leb_spec a b)
  end; cbn [negb andb notify maxlevel]; rewrite ?calls_of_one;
  repeat case_decide; cbn [negb andb notify maxlevel] in *;
  unfold calls_of; rewrite ?filter_nil; cbn [length];
  unfold NULL in *; subst; try first [done | congruence | lia].

Lemma calls_after_subscribe_two cb lvl level body msg c0 c1 :
  (notify c0 = notify c1 -> notify c0 = NULL) -> cb <> NULL ->
  let st := {| message := msg; consoles := [c0; c1] |} in
  fst (log_subscribe cb lvl st) = ERR_SUCCESS ->
  let st1 := snd (log_subscribe cb lvl st) in
  0 < snd (syslog_vformat (message st1) LOG_MAX_LEN (clamp_level level)
             None body) ->
  calls_of cb (snd (Log level body st1)) =
    if clamp_level level <=? clamp_level lvl then 1%nat else 0%nat.
Proof.
  intros Hne Hcb. cbn zeta.
  rewrite log_subscribe_two. cbn zeta.
  destruct c0 as [n0 m0], c1 as [n1 m1]. cbn [notify] in *.
  destruct (Z.eqb_spec n0 cb), (Z.eqb_spec n1 cb), (Z.eqb_spec n0 NULL),
    (Z.eqb_spec n1 NULL); cbn [fst snd message]; intros Hok Hlen;
    try discriminate Hok;
    rewrite Log_calls_two; cbn zeta;
    (destruct (Z.leb_spec (snd (syslog_vformat msg LOG_MAX_LEN
                 (clamp_level level) None body) + 1) 1); [lia|]);
    count_calls.
Qed.

(** X6: after a successful [log_subscribe] of a callback, a call to [Log]
    that formats a non-empty message calls it exactly once when the
    severity (LOG_DEBUG when out of range) is at most the level subscribed
    (LOG_DEBUG when out of range), and not at all otherwise. *)
Theorem subscribe_then_log
    (st : state) (cb : log_callback_t) (lvl level : Z)
    (body : option (list byte)) :
  reachable st -> cb <> NULL ->
  fst (log_subscribe cb lvl st) = ERR_SUCCESS ->
  let st1 := snd (log_subscribe cb lvl st) in
  0 < snd (syslog_vformat (message st1) LOG_MAX_LEN (clamp_level level)
             None body) ->
  calls_of cb (snd (Log level body st1)) =
    if clamp_level level <=? clamp_level lvl then 1%nat else 0%nat.
Proof.
  intros Hr Hcb. two_slots Hr.
  by apply calls_after_subscribe_two.
Qed.

Lemma subscribe_then_log_witness :
  calls_of 100%Z
    (snd (Log 2 (Some [104; 105])
            (snd (log_subscribe 100%Z 3 initial_state)))) = 1%nat.
Proof.
  refine (subscribe_then_log initial_state 100%Z 3 2 (Some [104; 105])
            reach_init _ _ _).
  - unfold NULL. lia.
  - reflexivity.
  - vm_compute. reflexivity.
Defined.

(** X7: once [log_unsubscribe] has removed a callback, [Log] does not
    call it. *)
Theorem unsubscribe_then_log
    (st : state) (cb : log_callback_t) (level : Z)
    (body : option (list byte)) :
  reachable st -> cb <> NULL ->
  calls_of cb (snd (Log level body (log_unsubscribe cb st))) = 0%nat.
Proof.
  intros Hr Hcb. two_slots Hr. rewrite log_unsubscribe_two.
  destruct c0 as [n0 m0], c1 as [n1 m1]. cbn [notify] in *.
  destruct (Z.eqb_spec n0 cb), (Z.eqb_spec n1 cb);
    rewrite Log_calls_two; cbn zeta;
    (destruct (_ <=? 1); [reflexivity|]);
    count_calls.
Qed.

Lemma unsubscribe_then_log_witness :
  calls_of 100%Z
    (snd (Log 2 (Some [104; 105])
            (log_unsubscribe 100%Z
               (snd (log_subscribe 100%Z 3 initial_state))))) = 0%nat.
Proof.
  apply unsubscribe_then_log.
  - apply reach_subscribe, reach_init.
  - unfold NULL. lia.
Defined.

(** X8: while no console is subscribed (as before [log_init] is called),
    [Log] calls nothing, and it never changes the console table. *)
Theorem log_without_consoles
    (st : state) (level : Z) (body : option (list byte)) :
  reachable st ->
  consoles (fst (Log level body st)) = consoles st /\
  (occupied (consoles st) = 0%nat -> snd (Log level body st) = []).
Proof.
  intros Hr. split; [by rewrite Log_unfold|].
  two_slots Hr. cbn [consoles]. rewrite occupied_two. intros Hfree.
  rewrite Log_calls_two. cbn zeta. destruct (_ <=? 1); [done|].
  unfold notified.
  repeat case_decide; try lia.
  destruct (Z.eqb_spec (notify c0) NULL); [|done].
  by destruct (Z.eqb_spec (notify c1) NULL).
Qed.

Lemma log_without_consoles_witness :
  snd (Log 2 (Some [104; 105]) initial_state) = [].
Proof.
  apply (log_without_consoles initial_state 2 (Some [104; 105]) reach_init).
  reflexivity.
Defined.

(** X9: [log_init].  On the zero-initialised hub it succeeds.  When it
    succeeds, the firmware console gets every message that [Log] formats
    when [verbose] is set, and every message but the LOG_DEBUG ones
    otherwise.  Calling it again is harmless: the hub is left as by the
    last call alone. *)
Theorem log_init_filters
    (st : state) (firmware_print : log_callback_t) (verbose again : bool)
    (level : Z) (body : option (list byte)) :
  reachable st -> firmware_print <> NULL ->
  fst (log_init firmware_print verbose initial_state) = ERR_SUCCESS /\
  (fst (log_init firmware_print verbose st) = ERR_SUCCESS ->
   let st1 := snd (log_init firmware_print verbose st) in
   0 < snd (syslog_vformat (message st1) LOG_MAX_LEN (clamp_level level)
              None body) ->
   calls_of firmware_print (snd (Log level body st1)) =
     if verbose then 1%nat
     else if clamp_level level =? LOG_DEBUG then 0%nat else 1%nat) /\
  log_init firmware_print again (snd (log_init firmware_print verbose st)) =
    log_init firmware_print again st.
Proof.
  intros Hr Hfw. split; [|split].
  - unfold log_init, initial_state.
    change (replicate CONSOLES_MAX_NR free_console)
      with [free_console; free_console].
    rewrite log_subscribe_two. cbn.
    by destruct firmware_print.
  - unfold log_init. cbn zeta. intros Hok Hlen. two_slots Hr.
    rewrite (calls_after_subscribe_two firmware_print _ level body _ _ _
               Hne Hfw Hok Hlen).
    pose proof (clamp_level_range level) as Hrange.
    unfold LOG_EMERG, LOG_DEBUG in Hrange.
    destruct verbose; unfold clamp_level at 2; cbn.
    + destruct (Z.leb_spec (clamp_level level) LOG_DEBUG);
        unfold LOG_DEBUG in *; [done | lia].
    + destruct (Z.leb_spec (clamp_level level) LOG_INFO),
        (Z.eqb_spec (clamp_level level) LOG_DEBUG);
        unfold LOG_INFO, LOG_DEBUG in *; try done; lia.
  - unfold log_init. two_slots Hr. by apply log_subscribe_twice_two.
Qed.

Lemma log_init_filters_witness :
  calls_of 100%Z
    (snd (Log LOG_DEBUG (Some [104; 105])
            (snd (log_init 100%Z false initial_state)))) = 0%nat.
Proof.
  refine (proj1 (proj2 (log_init_filters initial_state 100%Z false false
                          LOG_DEBUG (Some [104; 105]) reach_init _)) _ _).
  - unfold NULL. lia.
  - reflexivity.
  - vm_compute. reflexivity.
Defined.

(** ** The message *)

(** X10: when header, prefix and text leave room for a newline and the NUL
    in the buffer, [syslog_vformat] cuts nothing: the buffer holds the
    header ["<d>"], the prefix and the text, a newline being appended
    unless they end with one already, then a NUL; the length returned is
    the length of that message. *)
Theorem syslog_vformat_fits (buf : list byte) buflen level prefix text :
  Z.of_nat (length buf) = buflen ->
  IS_SYSLOG_LEVEL level = true ->
  let full := syslog_header level prefix ++ text in
  Z.of_nat (length full) + 2 <= buflen ->
  let r := syslog_vformat buf buflen level prefix (Some text) in
  let out := if bool_decide (last full = Some NEWLINE) then full
             else full ++ [NEWLINE] in
  snd r = Z.of_nat (length out) /\
  take (length out) (fst r) = out /\
  fst r !! length out = Some NUL.
Proof.
  intros Hbuflen Hlvl full Hfit r out.
  pose proof (syslog_header_length level prefix) as Hh.
  assert (Hlen5 : SYSLOG_EMPTY_MSG_SIZE <= buflen).
  { unfold SYSLOG_EMPTY_MSG_SIZE, full in *. rewrite length_app in Hfit.
    clearbody full. lia. }
  destruct r as [buf' len] eqn:Hr. subst r.
  destruct (syslog_vformat_content _ _ _ _ _ _ _ Hbuflen Hlen5 Hlvl Hr)
    as (Htake & Hnul & Hlen).
  rewrite formatted_message_fits in Htake, Hlen by exact Hfit.
  fold full in Htake, Hlen. fold out in Htake, Hlen.
  cbn [fst snd]. rewrite Hlen, Nat2Z.id in Htake, Hnul. by rewrite Hlen.
Qed.

Lemma syslog_vformat_fits_witness :
  take 6 (fst (syslog_vformat (replicate 12 7) 12 3 None (Some [104; 105]))) =
    [60; 51; 62; 104; 105; 10].
Proof.
  assert (Hfit : Z.of_nat (length (syslog_header 3 None ++ [104; 105])) + 2
                 <= 12) by (cbn; lia).
  exact (proj1 (proj2 (syslog_vformat_fits (replicate 12 7) 12 3 None
                         [104; 105] eq_refl eq_refl Hfit))).
Defined.

(** X11: when header, prefix and text do not leave room for the NUL and a
    character more, [syslog_vformat] fills the buffer: it cuts them to
    [buflen - 2] characters, writes a newline and the NUL after them, and
    returns [buflen - 1]. *)
Theorem syslog_vformat_truncates (buf : list byte) buflen level prefix text :
  Z.of_nat (length buf) = buflen ->
  SYSLOG_EMPTY_MSG_SIZE <= buflen ->
  IS_SYSLOG_LEVEL level = true ->
  let full := syslog_header level prefix ++ text in
  buflen - 1 <= Z.of_nat (length full) ->
  syslog_vformat buf buflen level prefix (Some text) =
    (take (Z.to_nat (buflen - 2)) full ++ [NEWLINE; NUL], buflen - 1).
Proof.
  intros Hbuflen Hlen5 Hlvl full Hlong.
  destruct (syslog_vformat buf buflen level prefix (Some text))
    as [buf' len] eqn:Hr.
  destruct (syslog_vformat_content _ _ _ _ _ _ _ Hbuflen Hlen5 Hlvl Hr)
    as (Htake & Hnul & Hlen).
  destruct (syslog_vformat_shape _ _ _ _ _ _ _ Hbuflen Hr) as [Hsame _].
  unfold SYSLOG_EMPTY_MSG_SIZE in Hlen5.
  rewrite formatted_message_cut in Htake, Hlen by (fold full; lia).
  fold full in Htake, Hlen.
  assert (Hlen' : len = buflen - 1).
  { rewrite Hlen, length_app, length_take. cbn [length]. clearbody full. lia. }
  f_equal; [|exact Hlen'].
  rewrite <- (take_drop_middle buf' _ NUL Hnul), Htake.
  rewrite drop_ge by lia.
  by rewrite <- app_assoc.
Qed.

Lemma syslog_vformat_truncates_witness :
  syslog_vformat (replicate 6 7) 6 3 None (Some [104; 105; 106; 107]) =
    ([60; 51; 62; 104; 10; 0], 5).
Proof.
  apply (syslog_vformat_truncates (replicate 6 7) 6 3 None
           [104; 105; 106; 107]).
  - reflexivity.
  - unfold SYSLOG_EMPTY_MSG_SIZE. lia.
  - reflexivity.
  - cbn. lia.
Defined.

(** X12: the length [syslog_vformat] returns.  It is 0, and the buffer is
    left as it was, when the buffer has less than 5 bytes or the level is
    not in the syslog range; it is 0 when the formatting of the text fails;
    in every other case it is at least 4 (header and newline) and at most
    [buflen - 1].  The buffer keeps its size in all cases. *)
Theorem syslog_vformat_length (buf : list byte) buflen level prefix body :
  Z.of_nat (length buf) = buflen ->
  let r := syslog_vformat buf buflen level prefix body in
  length (fst r) = length buf /\
  (buflen < SYSLOG_EMPTY_MSG_SIZE \/ IS_SYSLOG_LEVEL level = false ->
   r = (buf, 0)) /\
  (body = None -> snd r = 0) /\
  (SYSLOG_EMPTY_MSG_SIZE <= buflen -> IS_SYSLOG_LEVEL level = true ->
   body <> None -> 4 <= snd r <= buflen - 1).
Proof.
  intros Hbuflen r. subst r.
  destruct (syslog_vformat buf buflen level prefix body) as [buf' len] eqn:Hr.
  destruct (syslog_vformat_shape _ _ _ _ _ _ _ Hbuflen Hr) as [Hsame _].
  split; [exact Hsame|]. split; [|split].
  - intros Hbad. rewrite <- Hr. unfold syslog_vformat.
    destruct Hbad as [Hsmall | ->].
    + by destruct (Z.ltb_spec buflen SYSLOG_EMPTY_MSG_SIZE); [|lia].
    + by rewrite orb_true_r.
  - intros ->. by rewrite <- (syslog_vformat_none buf buflen level prefix), Hr.
  - intros Hlen5 Hlvl Hbody. destruct body as [text|]; [|done].
    destruct (syslog_vformat_content _ _ _ _ _ _ _ Hbuflen Hlen5 Hlvl Hr)
      as (_ & _ & ->).
    cbn [snd]. by apply formatted_message_header.
Qed.

Lemma syslog_vformat_length_witness :
  4 <= snd (syslog_vformat (replicate 12 7) 12 3 None (Some [])) <= 11.
Proof.
  apply (syslog_vformat_length (replicate 12 7) 12 3 None (Some []) eq_refl).
  - unfold SYSLOG_EMPTY_MSG_SIZE. lia.
  - reflexivity.
  - discriminate.
Defined.

(** X13: [syslog_get_message_level] gives back the level a message was
    formatted with: on the buffer [syslog_vformat] has filled at a level
    of the syslog range, it succeeds and stores that level, whatever
    prefix and text the message has. *)
Theorem syslog_level_round_trip (is_syslog_message : list byte -> bool)
    (buf : list byte) buflen level prefix text (level0 : Z) :
  (forall m, has_syslog_header m = true -> is_syslog_message m = true) ->
  Z.of_nat (length buf) = buflen ->
  SYSLOG_EMPTY_MSG_SIZE <= buflen ->
  IS_SYSLOG_LEVEL level = true ->
  syslog_get_message_level is_syslog_message
    (fst (syslog_vformat buf buflen level prefix (Some text))) level0 =
    (ERR_SUCCESS, level).
Proof.
  intros His Hbuflen Hlen5 Hlvl.
  destruct (syslog_vformat buf buflen level prefix (Some text))
    as [buf' len] eqn:Hr.
  destruct (syslog_vformat_content _ _ _ _ _ _ _ Hbuflen Hlen5 Hlvl Hr)
    as (Htake & _ & Hlen).
  destruct (formatted_message_header buflen level prefix text Hlen5)
    as [Hhdr Hlen4].
  rewrite <- Hlen in Hlen4. rewrite <- Htake in Hhdr.
  rewrite take_take in Hhdr.
  replace (3 `min` Z.to_nat len)%nat with 3%nat in Hhdr by lia.
  assert (Hget : forall (i : nat) x, (i < 3)%nat ->
            [60; 48 + level; 62] !! i = Some x -> load buf' (Z.of_nat i) = x).
  { intros i x Hi Hx. unfold load. rewrite Nat2Z.id.
    rewrite <- Hhdr in Hx. rewrite lookup_take_lt in Hx by done.
    unfold byte in *. by rewrite Hx. }
  pose proof (Hget 0%nat 60 ltac:(lia) eq_refl) as H0.
  pose proof (Hget 1%nat (48 + level) ltac:(lia) eq_refl) as H1.
  pose proof (Hget 2%nat 62 ltac:(lia) eq_refl) as H2.
  change (load buf' 0 = 60) in H0. change (load buf' 1 = 48 + level) in H1.
  change (load buf' 2 = 62) in H2.
  cbn [fst]. unfold syslog_get_message_level.
  rewrite His.
  - cbn [negb]. rewrite H1. f_equal. lia.
  - unfold has_syslog_header. rewrite H0, H1, H2.
    replace (48 + level - 48) with level by lia.
    by rewrite Hlvl.
Qed.

Lemma syslog_level_round_trip_witness :
  syslog_get_message_level has_syslog_header
    (fst (syslog_vformat (replicate 12 7) 12 3 None (Some [104; 105]))) 0 =
    (ERR_SUCCESS, 3).
Proof.
  apply (syslog_level_round_trip has_syslog_header (replicate 12 7) 12 3
           None [104; 105] 0).
  - done.
  - reflexivity.
  - unfold SYSLOG_EMPTY_MSG_SIZE. lia.
  - reflexivity.
Defined.



(** X14: what [Log] leaves in the message buffer, and hands to the
    consoles, for a text without NUL.  A text of at most 1019 characters is
    kept whole: the string is the header ["<d>"], [d] the digit of the
    level (LOG_DEBUG when out of range), the text, and a newline unless
    the text ends with one.  A longer text is cut to its first 1019
    characters, followed by a newline.  Every console called receives that
    buffer. *)
Theorem log_message_text (st : state) (level : Z) (text : list byte) :
  reachable st -> Forall (fun b => b <> NUL) text ->
  let r := Log level (Some text) st in
  let hdr := [60; 48 + clamp_level level; 62] in
  c_string (message (fst r)) =
    (if Z.of_nat (length text) <=? LOG_MAX_LEN - 5
     then hdr ++ text ++
          (if bool_decide (last text = Some NEWLINE) then [] else [NEWLINE])
     else hdr ++ take (Z.to_nat (LOG_MAX_LEN - 5)) text ++ [NEWLINE]) /\
  Forall (fun c => snd c = message (fst r)) (snd r).
Proof.
  intros Hr Hnz r hdr. subst r.
  destruct (reachable_inv _ Hr) as [_ Hmsg].
  assert (Hbuflen : Z.of_nat (length (message st)) = LOG_MAX_LEN)
    by (rewrite Hmsg; unfold LOG_MAX_LEN; lia).
  two_slots Hr. cbn [message] in *.
  rewrite Log_unfold. cbn zeta. cbn [fst snd message consoles].
  pose proof (clamp_level_ok level) as Hlvl.
  set (lvl := clamp_level level) in *. clearbody lvl.
  destruct (syslog_vformat msg LOG_MAX_LEN lvl None (Some text))
    as [buf' len] eqn:Hv.
  assert (Hlen5 : SYSLOG_EMPTY_MSG_SIZE <= LOG_MAX_LEN)
    by (unfold SYSLOG_EMPTY_MSG_SIZE, LOG_MAX_LEN; lia).
  destruct (syslog_vformat_content _ _ _ _ _ _ _ Hbuflen Hlen5 Hlvl Hv)
    as (Htake & Hnul & Hlen).
  destruct (syslog_vformat_shape _ _ _ _ _ _ _ Hbuflen Hv) as [_ Hdel].
  destruct (formatted_message_header LOG_MAX_LEN lvl None text Hlen5)
    as [_ Hlen4].
  rewrite <- Hlen in Hlen4.
  destruct Hdel as (_ & Hnonul & _ & _);
    [lia | constructor | by intros ? [= <-] |].
  cbn [fst snd]. split.
  - rewrite (c_string_take buf' (Z.to_nat len)) by done.
    rewrite Htake.
    assert (Hfull : syslog_header lvl None ++ text = hdr ++ text).
    { unfold syslog_header. cbn [default from_option id].
      by rewrite app_nil_r. }
    unfold LOG_MAX_LEN in *.
    destruct (Z.leb_spec (Z.of_nat (length text)) (1024 - 5)) as [Hle|Hgt].
    + rewrite formatted_message_fits
        by (rewrite Hfull, length_app; subst hdr; cbn [length];
            unfold byte in *; lia).
      rewrite (bool_decide_ext _ _ (last_header_text lvl text)).
      rewrite Hfull. case_bool_decide; [by rewrite app_nil_r|].
      by rewrite <- app_assoc.
    + rewrite formatted_message_cut
        by (rewrite ?Hfull, ?length_app; subst hdr; cbn [length];
            unfold byte in *; lia).
      rewrite Hfull.
      change (Z.to_nat (1024 - 2)) with (3 + Z.to_nat (1024 - 5))%nat.
      subst hdr. cbn [app take Nat.add]. reflexivity.
  - destruct (_ <=? 1); [constructor|].
    rewrite notify_loop_two.
    repeat case_match; repeat constructor.
Qed.

Lemma log_message_text_witness :
  c_string (message (fst (Log 2 (Some [104; 105]) initial_state))) =
    [60; 50; 62; 104; 105; 10].
Proof.
  refine (proj1 (log_message_text initial_state 2 [104; 105] reach_init _)).
  repeat constructor; unfold NUL; lia.
Defined.

(** X15: when the formatting of the message fails, [Log] calls no console,
    and leaves the console table as it is. *)
Theorem log_format_error_silent (st : state) (level : Z) :
  snd (Log level None st) = [] /\
  consoles (fst (Log level None st)) = consoles st.
Proof.
  rewrite Log_unfold. cbn zeta. cbn [fst snd consoles].
  by rewrite syslog_vformat_none.
Qed.


(** X16: [log_subscribe] does not reject a NULL routine.  With NULL it
    succeeds exactly when a slot is free, but registers nothing: the same
    slots are in use afterwards, with the same routines, and [Log] makes
    the same calls as before. *)
Theorem subscribe_null_registers_nothing
    (st : state) (lvl level : Z) (body : option (list byte)) :
  reachable st ->
  let r := log_subscribe NULL lvl st in
  (fst r = ERR_SUCCESS <-> (occupied (consoles st) < CONSOLES_MAX_NR)%nat) /\
  map notify (consoles (snd r)) = map notify (consoles st) /\
  snd (Log level body (snd r)) = snd (Log level body st).
Proof.
  intros Hr. two_slots Hr.
  rewrite log_subscribe_two. cbn zeta.
  destruct c0 as [n0 m0], c1 as [n1 m1]. cbn [notify] in *.
  unfold CONSOLES_MAX_NR.
  destruct (Z.eqb_spec n0 NULL) as [->|H0], (Z.eqb_spec n1 NULL) as [->|H1];
    cbn [fst snd consoles]; rewrite ?Log_calls_two; cbn zeta;
    unfold notified; cbn [notify maxlevel map free_console];
    rewrite ?occupied_two; cbn [notify];
    repeat case_decide; try done;
    rewrite ?Z.eqb_refl; cbn [negb andb];
    (split; [split; [lia | done] | done]) || (split; [split; [done | lia] | done]).
Qed.

Lemma subscribe_null_registers_nothing_witness :
  snd (Log 2 (Some [104; 105]) (snd (log_subscribe NULL 5 initial_state))) =
  snd (Log 2 (Some [104; 105]) initial_state).
Proof.
  exact (proj2 (proj2 (subscribe_null_registers_nothing initial_state 5 2
                         (Some [104; 105]) reach_init))).
Defined.

End LogRest.

Module TmfifoRest.
Import Tmfifo TmfifoProps.

(** ** The polling loop and the device *)

Lemma putc_loop_polls (dev : device) (c : Z) (timeout : nat) :
  forall hist,
  snd (putc_loop dev c timeout hist) =
    map (IoRead TILE_TO_HOST_STATUS) (polled (polls dev hist timeout)) ++
    (if room_found (polls dev hist timeout) then send_char c else []).
Proof.
  induction timeout as [|t IH]; intros hist; [reflexivity|].
  rewrite putc_loop_step. cbn zeta. cbn [polls polled room_found existsb].
  set (s := to_uint64 (dev hist TILE_TO_HOST_STATUS)).
  destruct (s >? FIFO_LENGTH - 2); cbn [snd negb orb map app].
  - by rewrite IH.
  - reflexivity.
Qed.

(** X17: the accesses of [tmfifo_putc] follow the device.  After the read
    of SCRATCHPAD1, and unless it gave zero, the status register is read
    until a value shows room in the FIFO, at most 0xffff times, each read
    seeing the reads made before it; the two writes that send the
    character follow when, and only when, one of these values showed
    room. *)
Theorem tmfifo_putc_follows_device (dev : device) (c : Z)
    (hist : list io_event) :
  let v := to_uint64 (dev hist SCRATCHPAD1) in
  let ss := polls dev (hist ++ [IoRead SCRATCHPAD1 v]) (Z.to_nat 0xffff) in
  snd (tmfifo_putc dev c hist) =
    IoRead SCRATCHPAD1 v ::
      (if v =? 0 then []
       else map (IoRead TILE_TO_HOST_STATUS) (polled ss) ++
            (if room_found ss then send_char c else [])).
Proof.
  intros v ss. rewrite tmfifo_putc_unfold. cbn zeta. fold v.
  destruct (v =? 0); [reflexivity|].
  by rewrite putc_loop_polls.
Qed.

Lemma reads_in_app (l k : list io_event) :
  reads_in (l ++ k) = reads_in l ++ reads_in k.
Proof. apply omap_app. Qed.

Lemma reads_in_polls (ss : list Z) :
  length (reads_in (map (IoRead TILE_TO_HOST_STATUS) ss)) = length ss.
Proof. induction ss as [|s ss IH]; [done | cbn; by rewrite <- IH]. Qed.

Lemma allowed_polls (ss : list Z) :
  Forall allowed_access (map (IoRead TILE_TO_HOST_STATUS) ss).
Proof. apply Forall_map, Forall_forall. intros s _. by right. Qed.

(** X18: [tmfifo_putc] always returns, after a bounded number of register
    accesses: at most 0x10000 reads, of SCRATCHPAD1 and of the status
    register only, and either no write or the two writes of the data
    register, never the header alone.  No other register is accessed. *)
Theorem tmfifo_putc_bounded (dev : device) (c : Z) (hist : list io_event) :
  let evs := snd (tmfifo_putc dev c hist) in
  Forall allowed_access evs /\
  Z.of_nat (length (reads_in evs)) <= 0x10000 /\
  (writes_of evs = [] \/
   writes_of evs = [(TILE_TO_HOST_DATA, header_data tx_header);
                    (TILE_TO_HOST_DATA, to_uint64 c)]).
Proof.
  intros evs. subst evs. rewrite tmfifo_putc_unfold. cbn zeta.
  set (v := to_uint64 (dev hist SCRATCHPAD1)).
  assert (HN : Z.of_nat (Z.to_nat 0xffff) = 0xffff) by lia.
  revert HN. generalize (Z.to_nat 0xffff) as N. intros N HN.
  destruct (v =? 0).
  { split; [constructor; [by left | constructor]|].
    split; [cbn; lia | by left]. }
  destruct (putc_loop_events dev c N (hist ++ [IoRead SCRATCHPAD1 v]))
    as (ss & _ & [(Hlt & s & _ & ->) | (Hlen & ->)]).
  - split; [|split].
    + constructor; [by left|]. apply Forall_app. split; [apply allowed_polls|].
      constructor; [by right|]. repeat constructor.
    + change (Z.of_nat (length (reads_in ([IoRead SCRATCHPAD1 v] ++
                map (IoRead TILE_TO_HOST_STATUS) ss ++
                [IoRead TILE_TO_HOST_STATUS s] ++ send_char c))) <= 0x10000).
      rewrite !reads_in_app, !length_app, reads_in_polls. cbn [length reads_in omap]. 
      cbn. lia.
    + right.
      change (writes_of ([IoRead SCRATCHPAD1 v] ++
                map (IoRead TILE_TO_HOST_STATUS) ss ++
                IoRead TILE_TO_HOST_STATUS s :: send_char c)
              = writes_of (send_char c)).
      by rewrite !writes_of_app, writes_of_polls.
  - split; [|split].
    + constructor; [by left | apply allowed_polls].
    + change (Z.of_nat (length (reads_in ([IoRead SCRATCHPAD1 v] ++
                map (IoRead TILE_TO_HOST_STATUS) ss))) <= 0x10000).
      rewrite !reads_in_app, !length_app, reads_in_polls. cbn. lia.
    + left.
      change (writes_of ([IoRead SCRATCHPAD1 v] ++
                map (IoRead TILE_TO_HOST_STATUS) ss) = []).
      by rewrite !writes_of_app, writes_of_polls.
Qed.

(** ** The message header *)

Lemma lor_byte_word (b w : Z) :
  0 <= b < 256 ->
  Z.land (Z.lor b (Z.shiftl w 8)) 0xff = b /\
  Z.shiftr (Z.lor b (Z.shiftl w 8)) 8 = w.
Proof.
  intros Hb. split.
  - change 0xff with (Z.ones 8).
    rewrite Z.land_lor_distr_l, !Z.land_ones by lia.
    rewrite Z.shiftl_mul_pow2 by lia.
    rewrite Z.mod_mul by lia. rewrite Z.lor_0_r.
    apply Z.mod_small. lia.
  - rewrite Z.shiftr_lor, Z.shiftr_shiftl_l by lia.
    rewrite Z.shiftr_div_pow2 by lia.
    rewrite Z.div_small by lia.
    by rewrite Z.lor_0_l, Z.sub_diag, Z.shiftl_0_r.
Qed.

Lemma le_word_byte (bytes : list Z) :
  Forall (fun b => 0 <= b < 256) bytes ->
  forall (i : nat) b, bytes !! i = Some b ->
  byte_of_word (le_word bytes) i = b.
Proof.
  induction 1 as [|b0 rest Hb0 _ IH]; intros i b Hi; [done|].
  destruct (lor_byte_word b0 (le_word rest) Hb0) as [Hlow Hhigh].
  unfold byte_of_word in *. cbn [le_word].
  destruct i as [|i].
  - injection Hi as <-. by rewrite Z.mul_0_r, Z.shiftr_0_r.
  - replace (8 * Z.of_nat (S i)) with (8 + 8 * Z.of_nat i) by lia.
    rewrite <- Z.shiftr_shiftr by lia. rewrite Hhigh. by apply IH.
Qed.

Lemma le_word_bound (bytes : list Z) :
  Forall (fun b => 0 <= b < 256) bytes ->
  0 <= le_word bytes < 2 ^ (8 * Z.of_nat (length bytes)).
Proof.
  induction 1 as [|b0 rest Hb0 _ IH]; [cbn; lia|].
  destruct (lor_byte_word b0 (le_word rest) Hb0) as [_ Hhigh].
  cbn [le_word length] in *.
  set (w := Z.lor b0 (Z.shiftl (le_word rest) 8)) in *.
  assert (0 <= w).
  { unfold w. apply Z.lor_nonneg. split; [lia|].
    apply Z.shiftl_nonneg. lia. }
  rewrite Z.shiftr_div_pow2 in Hhigh by lia.
  replace (8 * Z.of_nat (S (length rest)))
    with (8 + 8 * Z.of_nat (length rest)) by lia.
  rewrite Z.pow_add_r by lia.
  change (2 ^ 8) with 256 in *.
  pose proof (Z.div_mod w 256 ltac:(lia)).
  pose proof (Z.mod_pos_bound w 256 ltac:(lia)).
  rewrite Hhigh in *. clearbody w. nia.
Qed.

(** X19: the layout of the header word.  With 8-bit members, the [data]
    member of [tmfifo_msg_header_t] is a 64-bit value whose least
    significant byte is [type], whose next two bytes are [len_hi] and
    [len_lo], and whose five upper bytes are those of [unused]: the
    members are read back from the word that is written to the FIFO. *)
Theorem header_data_layout (h : tmfifo_msg_header_t) :
  header_wf h ->
  byte_of_word (header_data h) 0 = type h /\
  byte_of_word (header_data h) 1 = len_hi h /\
  byte_of_word (header_data h) 2 = len_lo h /\
  (forall (i : nat) b, unused h !! i = Some b ->
     byte_of_word (header_data h) (3 + i) = b) /\
  to_uint64 (header_data h) = header_data h.
Proof.
  intros [Hlen Hbytes]. unfold header_data.
  pose proof (le_word_byte _ Hbytes) as Hget.
  pose proof (le_word_bound _ Hbytes) as Hbound.
  unfold header_bytes in *.
  rewrite length_app, Hlen in Hbound. cbn [length Nat.add] in Hbound.
  repeat split.
  - by apply Hget.
  - by apply Hget.
  - by apply Hget.
  - intros i b Hi. by apply Hget.
  - unfold to_uint64. apply Z.mod_small.
    change (8 * Z.of_nat 8) with 64 in Hbound. exact Hbound.
Qed.

Lemma header_data_layout_witness :
  byte_of_word (header_data tx_header) 0 = TMFIFO_MSG_CONSOLE /\
  byte_of_word (header_data tx_header) 1 = 0 /\
  byte_of_word (header_data tx_header) 2 = 1.
Proof.
  assert (Hwf : header_wf tx_header).
  { split; [reflexivity|].
    unfold header_bytes, tx_header, TMFIFO_MSG_CONSOLE. cbn.
    repeat (constructor; [lia|]). constructor. }
  destruct (header_data_layout tx_header Hwf) as (H0 & H1 & H2 & _).
  exact (conj H0 (conj H1 H2)).
Defined.

End TmfifoRest.
